(** * TicTacToe.py: the game object and its minimax search

    A shallow embedding of the class [TicTacToe] of [src/TicTacToe.py].
    A game object is a record of its five fields; a method that assigns to
    [self] is a function from the object to the object after the call and
    the call's outcome; objects live in a store, so that [copy.deepcopy]
    allocates and [add_move] updates in place. The terminal is the list of
    the lines still to be read and the list of what was written. *)

From Stdlib Require Import ZArith Ascii String Lia Sorted QArith DecimalString.
From stdpp Require Import base list.

Local Open Scope Z_scope.

(** ** Outcomes of a call *)

(** The two built-in exceptions the modelled code can raise. *)
Inductive exn : Set :=
| IndexError
| ValueError.

(** A call returns, raises, or (in the model only) stops because the
    recursion budget is spent or a reference points at no object. *)
Inductive result (A : Type) : Type :=
| Ok (a : A)
| Raise (e : exn)
| OutOfFuel
| BadRef.

Arguments Ok {A} a.
Arguments Raise {A} e.
Arguments OutOfFuel {A}.
Arguments BadRef {A}.

#[global] Instance result_ret : MRet result := fun A a => Ok a.

#[global] Instance result_bind : MBind result := fun A B f r =>
  match r with
  | Ok a => f a
  | Raise e => Raise e
  | OutOfFuel => OutOfFuel
  | BadRef => BadRef
  end.

(** ** Python list primitives used by the class *)

Module Py.

(** [l[-1]]: the last element, [IndexError] on the empty list. *)
Definition last_item {A} (l : list A) : result A :=
  match List.rev l with
  | [] => Raise IndexError
  | x :: _ => Ok x
  end.

(** [l[i] = v] for a Python integer [i]: negative indices count from the
    end, anything outside [-len, len) raises [IndexError]. *)
Definition setitem {A} (l : list A) (i : Z) (v : A) : result (list A) :=
  let n := Z.of_nat (length l) in
  if (0 <=? i) && (i <? n) then Ok (<[Z.to_nat i := v]> l)
  else if (- n <=? i) && (i <? 0) then Ok (<[Z.to_nat (n + i) := v]> l)
  else Raise IndexError.

(** [l[i]] for a position [i] computed by [index]. *)
Definition getitem {A} (l : list A) (i : nat) : result A :=
  match l !! i with
  | Some x => Ok x
  | None => Raise IndexError
  end.

(** [max(l)] and [min(l)]: [ValueError] on the empty list. *)
Definition max (l : list Z) : result Z :=
  match l with
  | [] => Raise ValueError
  | x :: r => Ok (fold_left Z.max r x)
  end.

Definition min (l : list Z) : result Z :=
  match l with
  | [] => Raise ValueError
  | x :: r => Ok (fold_left Z.min r x)
  end.

(** [l.index(v)]: the first position holding [v], [ValueError] if none. *)
Fixpoint index_from (k : nat) (l : list Z) (v : Z) : result nat :=
  match l with
  | [] => Raise ValueError
  | x :: r => if x =? v then Ok k else index_from (S k) r v
  end.

Definition index (l : list Z) (v : Z) : result nat := index_from 0 l v.

(** [set(combo).issubset(moves)]. *)
Definition issubset (combo moves : list Z) : bool :=
  forallb (fun i => existsb (Z.eqb i) moves) combo.

End Py.

(** ** The game object *)

Definition PLAYER_ONE : Z := 0.
Definition PLAYER_TWO : Z := 1.

Record TicTacToe : Type := mkTicTacToe {
  currentBoard : list string;
  playerOneMoves : list Z;
  playerTwoMoves : list Z;
  allMoves : list Z;
  currentPlayer : Z
}.

(** [__init__]. *)
Definition init : TicTacToe :=
  {| currentBoard := replicate 9 " "%string;
     playerOneMoves := [];
     playerTwoMoves := [];
     allMoves := [];
     currentPlayer := PLAYER_ONE |}.

Definition get_num_moves (self : TicTacToe) : Z :=
  Z.of_nat (length (allMoves self)).

(** The comprehension over [enumerate(self.currentBoard)], counting from [i]. *)
Fixpoint blanks_from (i : Z) (board : list string) : list Z :=
  match board with
  | [] => []
  | value :: rest =>
      if String.eqb value " "%string then i :: blanks_from (i + 1) rest
      else blanks_from (i + 1) rest
  end.

Definition get_available_moves (self : TicTacToe) : list Z :=
  blanks_from 0 (currentBoard self).

(** [add_move]: both histories are appended before the board is written,
    so an [IndexError] of the board assignment leaves them appended. *)
Definition add_move (self : TicTacToe) (moveIndex : Z)
  : TicTacToe * result unit :=
  let '(p1, p2, symbol) :=
    if currentPlayer self =? PLAYER_ONE
    then (playerOneMoves self ++ [moveIndex], playerTwoMoves self, "x"%string)
    else (playerOneMoves self, playerTwoMoves self ++ [moveIndex], "o"%string) in
  let all := allMoves self ++ [moveIndex] in
  match Py.setitem (currentBoard self) moveIndex symbol with
  | Ok board =>
      ({| currentBoard := board;
          playerOneMoves := p1;
          playerTwoMoves := p2;
          allMoves := all;
          currentPlayer := (currentPlayer self + 1) mod 2 |}, Ok tt)
  | Raise e =>
      ({| currentBoard := currentBoard self;
          playerOneMoves := p1;
          playerTwoMoves := p2;
          allMoves := all;
          currentPlayer := currentPlayer self |}, Raise e)
  | OutOfFuel => (self, OutOfFuel)
  | BadRef => (self, BadRef)
  end.

Definition winningCombos : list (list Z) :=
  [[0;1;2];[3;4;5];[6;7;8];[0;3;6];[1;4;7];[2;5;8];[0;4;8];[2;4;6]].

(** One turn of the loop of [check_win]. *)
Definition check_combo (self : TicTacToe) (acc : Z * bool) (combo : list Z)
  : Z * bool :=
  if Py.issubset combo (playerOneMoves self) then (PLAYER_ONE, true)
  else if Py.issubset combo (playerTwoMoves self) then (PLAYER_TWO, true)
  else acc.

Definition check_win (self : TicTacToe) : Z * bool :=
  fold_left (check_combo self) winningCombos
            (-1, Nat.eqb (length (allMoves self)) 9).

(** The score of a finished game. *)
Definition final_score (winner numMoves : Z) : Z :=
  if winner =? PLAYER_ONE then numMoves - 10
  else if winner =? PLAYER_TWO then 10 - numMoves
  else 0.

(** ** The store of objects

    A reference is a position in the store. A computation takes the store
    and returns the store after it together with its outcome; what was
    written before an exception stays written. *)

Definition ref : Set := nat.
Definition store : Type := list TicTacToe.
Definition M (A : Type) : Type := store -> store * result A.

#[global] Instance M_ret : MRet M := fun A a h => (h, Ok a).

#[global] Instance M_bind : MBind M := fun A B f m h =>
  match m h with
  | (h', Ok a) => f a h'
  | (h', Raise e) => (h', Raise e)
  | (h', OutOfFuel) => (h', OutOfFuel)
  | (h', BadRef) => (h', BadRef)
  end.

(** An outcome computed without the store. *)
Definition lift {A} (r : result A) : M A := fun h => (h, r).

(** A method that only reads [self]. *)
Definition read {A} (self : ref) (f : TicTacToe -> A) : M A := fun h =>
  match h !! self with
  | Some o => (h, Ok (f o))
  | None => (h, BadRef)
  end.

(** A method that assigns to [self]: the object is replaced in place. *)
Definition call {A} (self : ref) (f : TicTacToe -> TicTacToe * result A)
  : M A := fun h =>
  match h !! self with
  | Some o => let '(o', r) := f o in (<[self := o']> h, r)
  | None => (h, BadRef)
  end.

(** [TicTacToe()]: a new object. *)
Definition new : M ref := fun h => (h ++ [init], Ok (length h)).

(** [copy.deepcopy(self)]: a new object with the fields of [self]; the
    fields are lists of immutable values, owned by their object alone. *)
Definition deepcopy (self : ref) : M ref := fun h =>
  match h !! self with
  | Some o => (h ++ [o], Ok (length h))
  | None => (h, BadRef)
  end.

(** ** minimax *)

(** The choice made after the loop: [max] or [min] of the scores, then the
    move at the first position of that score. *)
Definition choose (maximize : bool) (moves scores : list Z)
  : result (Z * Z) :=
  bestScore ← (if maximize then Py.max scores else Py.min scores);
  k ← Py.index scores bestScore;
  bestMove ← Py.getitem moves k;
  mret (bestMove, bestScore).

Section Explore.

Variable rec : ref -> M (Z * Z).
Variable self : ref.
Variable maximize : bool.

(** The loop over the possible moves, with the two lists it fills. *)
Fixpoint explore (todo moves scores : list Z) : M (list Z * list Z) :=
  match todo with
  | [] => mret (moves, scores)
  | possibleMove :: rest =>
      possibleGame ← deepcopy self;
      _ ← call possibleGame (fun g => add_move g possibleMove);
      '(nextMove, nextScore) ← rec possibleGame;
      explore rest
        (moves ++ [if maximize then possibleMove else nextMove])
        (scores ++ [nextScore])
  end.

End Explore.

Fixpoint minimax (fuel : nat) (self : ref) (maximize : bool) : M (Z * Z) :=
  match fuel with
  | O => lift OutOfFuel
  | S fuel' =>
      '(winner, isOver) ← read self check_win;
      if isOver : bool then
        numMoves ← read self get_num_moves;
        all ← read self allMoves;
        bestMove ← lift (Py.last_item all);
        mret (bestMove, final_score winner numMoves)
      else
        todo ← read self get_available_moves;
        '(moves, scores) ←
          explore (fun g => minimax fuel' g (negb maximize))
                  self maximize todo [] [];
        lift (choose maximize moves scores)
  end.

(** ** The search on values

    [minimax] read as a function of the value of [self] alone: the copy made
    for a possible move is the value itself. [minimax_refines] below shows
    that the search on the store returns what this one returns. *)

Section ExploreVal.

Variable rec : TicTacToe -> result (Z * Z).
Variable self : TicTacToe.
Variable maximize : bool.

Fixpoint explore_val (todo moves scores : list Z)
  : result (list Z * list Z) :=
  match todo with
  | [] => mret (moves, scores)
  | possibleMove :: rest =>
      let '(possibleGame, r) := add_move self possibleMove in
      _ ← r;
      '(nextMove, nextScore) ← rec possibleGame;
      explore_val rest
        (moves ++ [if maximize then possibleMove else nextMove])
        (scores ++ [nextScore])
  end.

End ExploreVal.

Fixpoint minimax_val (fuel : nat) (self : TicTacToe) (maximize : bool)
  : result (Z * Z) :=
  match fuel with
  | O => OutOfFuel
  | S fuel' =>
      let '(winner, isOver) := check_win self in
      if isOver : bool then
        bestMove ← Py.last_item (allMoves self);
        mret (bestMove, final_score winner (get_num_moves self))
      else
        '(moves, scores) ←
          explore_val (fun g => minimax_val fuel' g (negb maximize))
                      self maximize (get_available_moves self) [] [];
        choose maximize moves scores
  end.

(** ** Games and their invariants *)

(** The mark of the player whose turn it is. *)
Definition mark (self : TicTacToe) : string :=
  if currentPlayer self =? PLAYER_ONE then "x"%string else "o"%string.

(** The object after a move that the board accepts at cell [k]. *)
Definition moved (self : TicTacToe) (moveIndex : Z) (k : nat) : TicTacToe :=
  {| currentBoard := <[k := mark self]> (currentBoard self);
     playerOneMoves :=
       if currentPlayer self =? PLAYER_ONE
       then playerOneMoves self ++ [moveIndex] else playerOneMoves self;
     playerTwoMoves :=
       if currentPlayer self =? PLAYER_ONE
       then playerTwoMoves self else playerTwoMoves self ++ [moveIndex];
     allMoves := allMoves self ++ [moveIndex];
     currentPlayer := (currentPlayer self + 1) mod 2 |}.

(** The game after the moves of a list, played in turn from a new game. *)
Definition play (moves : list Z) : TicTacToe :=
  fold_left (fun g m => (add_move g m).1) moves init.

(** The states that moves on blank cells lead to from a new game. *)
Inductive reachable : TicTacToe -> Prop :=
| reachable_init : reachable init
| reachable_move (s : TicTacToe) (m : Z) :
    reachable s ->
    In m (get_available_moves s) ->
    reachable (add_move s m).1.

(** The states of a game as [play_tictactoe] and [minimax] play it: a move
    is added only to a game that [check_win] does not report over. *)
Inductive well_formed : TicTacToe -> Prop :=
| well_formed_init : well_formed init
| well_formed_move (s : TicTacToe) (m : Z) :
    well_formed s ->
    (check_win s).2 = false ->
    In m (get_available_moves s) ->
    well_formed (add_move s m).1.

(** Every other entry of a list, starting with the first if [keep]. *)
Fixpoint picks {A} (keep : bool) (l : list A) : list A :=
  match l with
  | [] => []
  | x :: r => if keep then x :: picks (negb keep) r else picks (negb keep) r
  end.

(** The entries at the even and at the odd positions, counted from 0. *)
Definition evens {A} (l : list A) : list A := picks true l.
Definition odds {A} (l : list A) : list A := picks false l.

Record invariant (s : TicTacToe) : Prop := mkInvariant {
  inv_board : length (currentBoard s) = 9%nat;
  inv_count :
    (length (get_available_moves s) + length (allMoves s) = 9)%nat;
  inv_turn :
    currentPlayer s
    = if Nat.even (length (allMoves s)) then PLAYER_ONE else PLAYER_TWO;
  inv_one : playerOneMoves s = evens (allMoves s);
  inv_two : playerTwoMoves s = odds (allMoves s)
}.

(** Some winning combination is within the moves. *)
Definition has_line (moves : list Z) : bool :=
  existsb (fun combo => Py.issubset combo moves) winningCombos.

(** The eight winning lines as the data model lists them, and what it is
    for a player's moves to contain one. *)
Definition WinningLines : list (Z * Z * Z) :=
  [(0,1,2); (3,4,5); (6,7,8); (0,3,6); (1,4,7); (2,5,8); (0,4,8); (2,4,6)].

Definition holds_line (moves : list Z) : Prop :=
  exists a b c : Z,
    In (a, b, c) WinningLines /\ In a moves /\ In b moves /\ In c moves.

(** No cell of the board is blank. *)
Definition board_full (s : TicTacToe) : Prop :=
  Forall (fun value => value <> " "%string) (currentBoard s).

(** [minimax] on a game of value [s] returns the move and the score,
    wherever the game is stored and whatever the fuel above the number of
    blank cells. *)
Definition returns (s : TicTacToe) (maximize : bool) (bestMove bestScore : Z)
  : Prop :=
  forall (h : store) (self : ref) (fuel : nat),
    h !! self = Some s ->
    (length (get_available_moves s) < fuel)%nat ->
    exists h', minimax fuel self maximize h
               = (h', Ok (bestMove, bestScore)).

(** ** The terminal

    What the program does at the terminal is a list of events, the latest
    last; what it reads is the list of the lines that [input] will return. *)

Inductive event : Type :=
| Write (text : string)
| System (command : string)
| Sleep (seconds : Q).

Record world : Type := mkWorld {
  stdin : list string;
  stdout : list event;
  heap : store
}.

(** [input] at the end of the input raises [EOFError], which no method of
    the game raises on its own. *)
Inductive io_result (A : Type) : Type :=
| Done (r : result A)
| EOFError.

Arguments Done {A} r.
Arguments EOFError {A}.

Definition IO (A : Type) : Type := world -> world * io_result A.

#[global] Instance IO_ret : MRet IO := fun A a w => (w, Done (Ok a)).

#[global] Instance IO_bind : MBind IO := fun A B f m w =>
  match m w with
  | (w', Done (Ok a)) => f a w'
  | (w', Done (Raise e)) => (w', Done (Raise e))
  | (w', Done OutOfFuel) => (w', Done OutOfFuel)
  | (w', Done BadRef) => (w', Done BadRef)
  | (w', EOFError) => (w', EOFError)
  end.

(** A computation on the store of objects, run in the world. *)
Definition run {A} (m : M A) : IO A := fun w =>
  let '(h', r) := m (heap w) in
  ({| stdin := stdin w; stdout := stdout w; heap := h' |}, Done r).

Definition emit (e : event) : IO unit := fun w =>
  ({| stdin := stdin w; stdout := stdout w ++ [e]; heap := heap w |},
   Done (Ok tt)).

(** The line feed. *)
Definition LF : string := String "010"%char EmptyString.

(** [print(text)] and [print(text, end=..., flush=True)]. *)
Definition print (text : string) : IO unit := emit (Write (text ++ LF)%string).
Definition print_end (text end_ : string) : IO unit :=
  emit (Write (text ++ end_)%string).

(** [time.sleep] and [os.system], whose exit status is not used. *)
Definition sleep (seconds : Q) : IO unit := emit (Sleep seconds).
Definition system (command : string) : IO unit := emit (System command).

(** [str] of an integer, as [format] writes it. *)
Definition str (n : Z) : string := NilZero.string_of_int (Z.to_int n).

(** The format of [print_board] applied to the cells of the board: nine
    fields, so [IndexError] on fewer than nine cells. *)
Definition format_board (board : list string) : result string :=
  match board with
  | c0 :: c1 :: c2 :: c3 :: c4 :: c5 :: c6 :: c7 :: c8 :: _ =>
      Ok ("|" ++ c0 ++ "|" ++ c1 ++ "|" ++ c2 ++ "|" ++ LF
          ++ "|" ++ c3 ++ "|" ++ c4 ++ "|" ++ c5 ++ "|" ++ LF
          ++ "|" ++ c6 ++ "|" ++ c7 ++ "|" ++ c8 ++ "|")%string
  | _ => Raise IndexError
  end.

Section Terminal.

(** [os.name], and the conversion [int] of a line of input to an integer,
    [None] where it raises [ValueError]. *)
Variable os_name : string.
Variable int : string -> option Z.

Definition print_board (self : ref) : IO unit :=
  _ ← system (if String.eqb os_name "nt" then "cls" else "clear");
  board ← run (read self currentBoard);
  text ← run (lift (format_board board));
  print text.

(** The loop of [get_player_move] on the lines that [input] has still to
    return: each turn takes one line, and the end of the input ends it. *)
Fixpoint get_player_move_loop (self : ref) (lines : list string) : IO Z :=
  match lines with
  | [] => fun w => (w, EOFError)
  | line :: rest => fun w =>
      (match int line with
       | None =>
           _ ← print "That's not a number, try again.";
           get_player_move_loop self rest
       | Some playerMove =>
           availableMoves ← run (read self get_available_moves);
           if negb ((1 <=? playerMove) && (playerMove <? 10)) then
             _ ← print (str playerMove ++ " is out of range, try again.");
             get_player_move_loop self rest
           else if negb (existsb (Z.eqb (playerMove - 1)) availableMoves) then
             _ ← print (str playerMove ++ " is already taken, choose again.");
             get_player_move_loop self rest
           else
             _ ← print ("Player chose: " ++ str playerMove);
             mret (playerMove - 1)
       end) {| stdin := rest; stdout := stdout w; heap := heap w |}
  end.

Definition get_player_move (self : ref) : IO Z := fun w =>
  get_player_move_loop self (stdin w) w.

Definition print_game_instruc : IO unit :=
  let startMsg :=
    (LF ++ "Get ready to play! You will be X's and the computer "
        ++ "will be O's!" ++ LF ++ "To place an x, select the number of "
        ++ "the corresponding spot." ++ LF)%string in
  _ ← print startMsg;
  _ ← sleep 2.5;
  let layout :=
    ("|1|2|3|" ++ LF ++ "|4|5|6|" ++ LF ++ "|7|8|9|" ++ LF)%string in
  _ ← print ("Here's the layout of the board:" ++ LF ++ layout);
  sleep 2.

Fixpoint countdown_loop (counts : list Z) : IO unit :=
  match counts with
  | [] => mret tt
  | countdown :: rest =>
      _ ← print_end (str countdown ++ "...") EmptyString;
      _ ← sleep 1;
      countdown_loop rest
  end.

(** The loop of [play_tictactoe]; it ends on the winner that the last
    [check_win] gave. [depth] is the fuel of each search. *)
Fixpoint game_loop (fuel depth : nat) (newGame : ref) : IO Z :=
  match fuel with
  | O => fun w => (w, Done OutOfFuel)
  | S fuel' =>
      _ ← print "It's your turn, please choose a move:";
      playerMove ← get_player_move newGame;
      _ ← run (call newGame (fun g => add_move g playerMove));
      _ ← print_board newGame;
      '(winner, gameOver) ← run (read newGame check_win);
      if gameOver : bool then mret winner
      else
        _ ← print "Computer's turn...";
        '(cpuMove, score) ← run (minimax depth newGame true);
        _ ← sleep 0.5;
        _ ← run (call newGame (fun g => add_move g cpuMove));
        _ ← print_board newGame;
        '(winner, gameOver) ← run (read newGame check_win);
        if gameOver : bool then mret winner
        else game_loop fuel' depth newGame
  end.

(** The message for the winner. *)
Definition announce (winner : Z) : IO unit :=
  if winner =? 0 then print "Player 1 wins! Congratulations, human!"
  else if winner =? 1
  then print "Computer wins! Looks like Drew coded this correctly!"
  else if winner =? -1 then print "It's a tie!"
  else mret tt.

Definition play_tictactoe (fuel : nat) : IO unit :=
  newGame ← run new;
  _ ← print_game_instruc;
  _ ← print_end "Game starting in..." EmptyString;
  _ ← sleep 1;
  _ ← countdown_loop [3; 2; 1];
  _ ← print_board newGame;
  winner ← game_loop fuel fuel newGame;
  _ ← sleep 0.5;
  announce winner.

(** The move that [get_player_move] takes from a line of input, if any. *)
Definition accepted (s : TicTacToe) (line : string) : option Z :=
  match int line with
  | Some playerMove =>
      if (1 <=? playerMove) && (playerMove <? 10)
         && existsb (Z.eqb (playerMove - 1)) (get_available_moves s)
      then Some (playerMove - 1) else None
  | None => None
  end.

End Terminal.

(** The games that [play_tictactoe] can come to from [s] within [fuel]
    turns of its loop, whatever the player's moves: none that PLAYER_ONE
    wins, and none that goes on after the last turn. *)
Fixpoint never_loses (fuel : nat) (s : TicTacToe) : bool :=
  match fuel with
  | O => false
  | S fuel' =>
      forallb (fun playerMove =>
        let g := (add_move s playerMove).1 in
        let '(winner, gameOver) := check_win g in
        if gameOver : bool then negb (winner =? PLAYER_ONE)
        else
          match minimax_val 10 g true with
          | Ok (cpuMove, _) =>
              let g' := (add_move g cpuMove).1 in
              let '(winner', gameOver') := check_win g' in
              if gameOver' : bool then negb (winner' =? PLAYER_ONE)
              else never_loses fuel' g'
          | _ => false
          end) (get_available_moves s)
  end.

(** * Properties *)

(** ** The store and the value of [self] *)

Lemma lookup_fresh (h : store) (o : TicTacToe) :
  (h ++ [o]) !! length h = Some o.
Proof. by apply list_lookup_middle. Qed.

Lemma insert_fresh (h : store) (o o' : TicTacToe) :
  <[length h := o']> (h ++ [o]) = h ++ [o'].
Proof.
  rewrite insert_app_r_alt by lia.
  by rewrite Nat.sub_diag.
Qed.

Lemma lookup_kept (h k : store) (l : ref) (o : TicTacToe) :
  h !! l = Some o -> (h ++ k) !! l = Some o.
Proof. intros H. by apply lookup_app_l_Some. Qed.

Section Refinement.

Variable rec : ref -> M (Z * Z).
Variable recv : TicTacToe -> result (Z * Z).
Variable self : ref.
Variable maximize : bool.
Variable s : TicTacToe.

Hypothesis rec_refines : forall (g : ref) (h : store) (o : TicTacToe),
  h !! g = Some o -> exists k, rec g h = (h ++ k, recv o).

Lemma explore_refines (todo moves scores : list Z) (h : store) :
  h !! self = Some s ->
  exists k, explore rec self maximize todo moves scores h
            = (h ++ k, explore_val recv s maximize todo moves scores).
Proof.
  revert moves scores h.
  induction todo as [|m rest IH]; intros moves scores h Hs; simpl.
  - exists []. by rewrite app_nil_r.
  - unfold mbind, M_bind, deepcopy, call. rewrite Hs, lookup_fresh.
    destruct (add_move s m) as [g r]. rewrite insert_fresh.
    destruct r as [[]|e| |]; simpl; eauto.
    destruct (rec_refines (length h) (h ++ [g]) g (lookup_fresh h g))
      as [k ->].
    destruct (recv g) as [[nextMove nextScore]|e| |]; simpl;
      try (exists ([g] ++ k); by rewrite app_assoc).
    destruct (IH (moves ++ [if maximize then m else nextMove])
                 (scores ++ [nextScore]) ((h ++ [g]) ++ k)) as [k' ->].
    { rewrite <- app_assoc. by apply lookup_kept. }
    exists ([g] ++ k ++ k'). by rewrite !app_assoc.
Qed.

End Refinement.

(** The search on the store returns what the search on the value of [self]
    returns, and only appends to the store. *)
Lemma minimax_refines (fuel : nat) (self : ref) (maximize : bool)
      (h : store) (s : TicTacToe) :
  h !! self = Some s ->
  exists k, minimax fuel self maximize h
            = (h ++ k, minimax_val fuel s maximize).
Proof.
  revert self maximize h s.
  induction fuel as [|fuel IH]; intros self maximize h s Hs; simpl.
  - exists []. by rewrite app_nil_r.
  - unfold mbind, M_bind, read, lift. rewrite Hs.
    destruct (check_win s) as [winner isOver]. destruct isOver.
    + rewrite !Hs. exists []. rewrite app_nil_r.
      by destruct (Py.last_item (allMoves s)).
    + rewrite Hs.
      destruct (explore_refines
                  (fun g => minimax fuel g (negb maximize))
                  (fun g => minimax_val fuel g (negb maximize))
                  self maximize s
                  (fun g h o H => IH g (negb maximize) h o H)
                  (get_available_moves s) [] [] h Hs) as [k ->].
      exists k.
      by destruct (explore_val _ s maximize _ [] []) as [[moves scores]|e| |].
Qed.

(** ** The board and its blank cells *)

Lemma blanks_from_In (i : Z) (board : list string) (m : Z) :
  In m (blanks_from i board) <->
  exists k : nat, m = i + Z.of_nat k /\ board !! k = Some " "%string.
Proof.
  revert i. induction board as [|value rest IH]; intros i; simpl.
  - split; [tauto | by intros (k & _ & H)].
  - destruct (String.eqb_spec value " ") as [->|Hne]; simpl;
      rewrite IH; split.
    + intros [<-|(k & -> & Hk)]; [exists 0%nat | exists (S k)];
        split; try done; lia.
    + intros ([|k] & -> & Hk); [left; lia | right; exists k].
      split; [lia | done].
    + intros (k & -> & Hk). exists (S k). split; [lia | done].
    + intros ([|k] & -> & Hk); simpl in Hk; [congruence | exists k].
      split; [lia | done].
Qed.

Lemma blanks_from_range (i : Z) (board : list string) (m : Z) :
  In m (blanks_from i board) -> i <= m < i + Z.of_nat (length board).
Proof.
  rewrite blanks_from_In. intros (k & -> & Hk).
  apply lookup_lt_Some in Hk. lia.
Qed.

Lemma blanks_from_length (i : Z) (board : list string) :
  (length (blanks_from i board) <= length board)%nat.
Proof.
  revert i. induction board as [|value rest IH]; intros i; simpl; [lia|].
  specialize (IH (i + 1)). destruct (String.eqb value " "); simpl; lia.
Qed.

(** Writing a mark on a blank cell removes one blank. *)
Lemma blanks_from_insert_length (i : Z) (board : list string) (k : nat)
      (symbol : string) :
  board !! k = Some " "%string -> symbol <> " "%string ->
  S (length (blanks_from i (<[k := symbol]> board)))
  = length (blanks_from i board).
Proof.
  intros Hk Hsym. revert i k Hk.
  induction board as [|value rest IH]; intros i [|k] Hk; simpl in *;
    try done.
  - injection Hk as ->. simpl.
    by destruct (String.eqb_spec symbol " ").
  - specialize (IH (i + 1) k Hk).
    destruct (String.eqb value " "); simpl; lia.
Qed.

Lemma blanks_from_insert_In (i : Z) (board : list string) (k : nat)
      (symbol : string) (m : Z) :
  symbol <> " "%string ->
  In m (blanks_from i (<[k := symbol]> board)) ->
  In m (blanks_from i board) /\ m <> i + Z.of_nat k.
Proof.
  intros Hsym. rewrite !blanks_from_In. intros (j & -> & Hj).
  destruct (decide (j = k)) as [->|Hjk].
  - assert (k < length board)%nat as Hlt.
    { apply lookup_lt_Some in Hj. by rewrite length_insert in Hj. }
    rewrite list_lookup_insert_eq in Hj by done. congruence.
  - rewrite list_lookup_insert_ne in Hj by done.
    split; [by exists j | lia].
Qed.

(** ** What [add_move] does *)

Lemma mark_not_blank (self : TicTacToe) : mark self <> " "%string.
Proof. unfold mark. by destruct (currentPlayer self =? PLAYER_ONE). Qed.

Lemma add_move_in_range (self : TicTacToe) (moveIndex : Z) :
  0 <= moveIndex < Z.of_nat (length (currentBoard self)) ->
  add_move self moveIndex
  = (moved self moveIndex (Z.to_nat moveIndex), Ok tt).
Proof.
  intros H. unfold add_move, moved, mark, Py.setitem.
  destruct (Z.leb_spec 0 moveIndex); [|lia].
  destruct (Z.ltb_spec moveIndex (Z.of_nat (length (currentBoard self))));
    [|lia].
  by destruct (currentPlayer self =? PLAYER_ONE).
Qed.

Lemma available_in_range (self : TicTacToe) (m : Z) :
  In m (get_available_moves self) ->
  0 <= m < Z.of_nat (length (currentBoard self)).
Proof. apply blanks_from_range. Qed.

Lemma available_blank (self : TicTacToe) (m : Z) :
  In m (get_available_moves self) <->
  0 <= m /\ currentBoard self !! Z.to_nat m = Some " "%string.
Proof.
  unfold get_available_moves. rewrite blanks_from_In. split.
  - intros (k & -> & Hk). rewrite Z.add_0_l, Nat2Z.id. split; [lia | done].
  - intros [H0 Hm]. exists (Z.to_nat m). split; [lia | done].
Qed.

Lemma add_move_available (self : TicTacToe) (m : Z) :
  In m (get_available_moves self) ->
  add_move self m = (moved self m (Z.to_nat m), Ok tt).
Proof. intros H. by apply add_move_in_range, available_in_range. Qed.

(** Each move on a blank cell leaves one blank cell less. *)
Lemma available_shrinks (self : TicTacToe) (m : Z) :
  In m (get_available_moves self) ->
  S (length (get_available_moves (add_move self m).1))
  = length (get_available_moves self).
Proof.
  intros H. rewrite add_move_available by done. simpl.
  apply available_blank in H as [_ H].
  apply blanks_from_insert_length; [done | apply mark_not_blank].
Qed.

Lemma available_after (self : TicTacToe) (m m' : Z) :
  In m (get_available_moves self) ->
  In m' (get_available_moves (add_move self m).1) ->
  In m' (get_available_moves self).
Proof.
  intros H. rewrite add_move_available by done. simpl. intros H'.
  by apply blanks_from_insert_In in H' as [H' _];
    [|apply mark_not_blank].
Qed.

(** ** The invariant of reachable games *)

Lemma picks_app {A} (keep : bool) (l : list A) (m : A) :
  picks keep (l ++ [m])
  = picks keep l ++ (if Bool.eqb keep (Nat.even (length l)) then [m] else []).
Proof.
  revert keep. induction l as [|x r IH]; intros keep.
  - by destruct keep.
  - cbn [app picks length]. rewrite IH, Nat.even_succ, <- Nat.negb_even.
    by destruct keep, (Nat.even (length r)).
Qed.

Lemma invariant_init : invariant init.
Proof. by split. Qed.

Lemma invariant_move (s : TicTacToe) (m : Z) :
  invariant s -> In m (get_available_moves s) ->
  invariant (add_move s m).1.
Proof.
  intros [Hb Hc Ht H1 H2] Hm.
  pose proof (available_shrinks s m Hm) as Hs.
  rewrite add_move_available in * by done. simpl in Hs.
  split; simpl.
  - by rewrite length_insert.
  - rewrite length_app. simpl. lia.
  - rewrite length_app, Nat.add_1_r, Nat.even_succ, <- Nat.negb_even, Ht.
    by destruct (Nat.even (length (allMoves s))).
  - unfold evens in *. rewrite picks_app, Ht, H1.
    destruct (Nat.even (length (allMoves s))); simpl;
      [done | by rewrite app_nil_r].
  - unfold odds in *. rewrite picks_app, Ht, H2.
    destruct (Nat.even (length (allMoves s))); simpl;
      [by rewrite app_nil_r | done].
Qed.

Lemma reachable_invariant (s : TicTacToe) : reachable s -> invariant s.
Proof.
  induction 1; [apply invariant_init | by apply invariant_move].
Qed.

Lemma well_formed_reachable (s : TicTacToe) : well_formed s -> reachable s.
Proof. induction 1; by constructor. Qed.

(** ** What [check_win] reports *)

Lemma mem_In (i : Z) (moves : list Z) :
  existsb (Z.eqb i) moves = true <-> In i moves.
Proof.
  rewrite existsb_exists. split.
  - intros (x & Hx & Heq). apply Z.eqb_eq in Heq. by subst.
  - intros H. exists i. split; [done | apply Z.eqb_refl].
Qed.

Lemma issubset_triple (a b c : Z) (moves : list Z) :
  Py.issubset [a; b; c] moves = true <->
  In a moves /\ In b moves /\ In c moves.
Proof.
  unfold Py.issubset. simpl.
  rewrite !andb_true_iff, !mem_In. tauto.
Qed.

(** The combinations of the code are the lines of the data model. *)
Lemma has_line_holds (moves : list Z) :
  has_line moves = true <-> holds_line moves.
Proof.
  unfold has_line, holds_line, winningCombos, WinningLines.
  cbn [existsb]. rewrite !orb_true_iff, !issubset_triple. split.
  - intros H. repeat destruct H as [H|H]; try done.
    all: match type of H with
         | In ?a _ /\ In ?b _ /\ In ?c _ => exists a, b, c
         end.
    all: split; [simpl; tauto | done].
  - intros (a & b & c & Hin & H).
    repeat destruct Hin as [Hin|Hin]; try done.
    all: injection Hin as <- <- <-; tauto.
Qed.

Lemma has_line_nil : has_line [] = false.
Proof. reflexivity. Qed.

(** The loop of [check_win] over any list of combinations: it keeps what it
    started with when neither player holds one, and otherwise ends on a
    player who holds one. *)
Lemma check_fold_cases (s : TicTacToe) (combos : list (list Z))
      (acc : Z * bool) :
  let held moves := existsb (fun c => Py.issubset c moves) combos in
  let r := fold_left (check_combo s) combos acc in
  (held (playerOneMoves s) = false /\ held (playerTwoMoves s) = false
   /\ r = acc)
  \/ (held (playerOneMoves s) = true /\ r = (PLAYER_ONE, true))
  \/ (held (playerTwoMoves s) = true /\ r = (PLAYER_TWO, true)).
Proof.
  revert acc. induction combos as [|c rest IH]; intros acc; simpl.
  - by left.
  - destruct (IH (check_combo s acc c)) as [(H1 & H2 & Hr)|[[H Hr]|[H Hr]]];
      simpl in *; rewrite Hr.
    + rewrite H1, H2, !orb_false_r. unfold check_combo.
      destruct (Py.issubset c (playerOneMoves s)); [right; by left|].
      destruct (Py.issubset c (playerTwoMoves s)); [right; by right|].
      by left.
    + right; left. by rewrite H, orb_true_r.
    + right; right. by rewrite H, orb_true_r.
Qed.

Lemma check_win_cases (s : TicTacToe) :
  (has_line (playerOneMoves s) = false /\ has_line (playerTwoMoves s) = false
   /\ check_win s = (-1, Nat.eqb (length (allMoves s)) 9))
  \/ (has_line (playerOneMoves s) = true /\ check_win s = (PLAYER_ONE, true))
  \/ (has_line (playerTwoMoves s) = true /\ check_win s = (PLAYER_TWO, true)).
Proof. apply check_fold_cases. Qed.

Lemma not_over_no_line (s : TicTacToe) :
  (check_win s).2 = false ->
  has_line (playerOneMoves s) = false /\ has_line (playerTwoMoves s) = false
  /\ length (allMoves s) <> 9%nat.
Proof.
  destruct (check_win_cases s) as [(H1 & H2 & ->)|[[_ ->]|[_ ->]]];
    simpl; try done.
  intros H. by apply Nat.eqb_neq in H.
Qed.

(** In a game played by the rules at most one player holds a line. *)
Lemma well_formed_one_sided (s : TicTacToe) :
  well_formed s ->
  has_line (playerOneMoves s) = false \/ has_line (playerTwoMoves s) = false.
Proof.
  destruct 1 as [|s m _ Hnot Hm]; [by left|].
  apply not_over_no_line in Hnot as (H1 & H2 & _).
  rewrite add_move_available by done. simpl.
  destruct (currentPlayer s =? PLAYER_ONE); [by right | by left].
Qed.

Lemma available_nil_full (s : TicTacToe) :
  get_available_moves s = [] <-> board_full s.
Proof.
  unfold board_full. rewrite Forall_lookup. split.
  - intros H k value Hk ->.
    assert (In (Z.of_nat k) (get_available_moves s)) as Hin.
    { apply available_blank. rewrite Nat2Z.id. split; [lia | done]. }
    by rewrite H in Hin.
  - intros H. destruct (get_available_moves s) as [|m r] eqn:E; [done|].
    assert (In m (get_available_moves s)) as Hin by (rewrite E; by left).
    apply available_blank in Hin as [_ Hin]. by destruct (H _ _ Hin).
Qed.

Lemma full_iff_nine (s : TicTacToe) :
  invariant s -> (board_full s <-> length (allMoves s) = 9%nat).
Proof.
  intros [_ Hc _ _ _]. rewrite <- available_nil_full. split.
  - intros H. rewrite H in Hc. simpl in Hc. lia.
  - intros H. destruct (get_available_moves s); [done | simpl in Hc; lia].
Qed.

(** A reachable game that is over has a last move. *)
Lemma over_last_move (s : TicTacToe) :
  invariant s -> (check_win s).2 = true ->
  exists m, Py.last_item (allMoves s) = Ok m.
Proof.
  intros [_ _ _ H1 H2] Hover.
  assert (allMoves s <> []) as Hne.
  { intros E. rewrite E in *. simpl in *.
    destruct (check_win_cases s) as [(_ & _ & Hw)|[[H _]|[H _]]].
    - rewrite Hw, E in Hover. done.
    - by rewrite H1 in H.
    - by rewrite H2 in H. }
  unfold Py.last_item. destruct (allMoves s) as [|x r] using rev_ind;
    [done|].
  rewrite rev_app_distr. simpl. eauto.
Qed.

Lemma not_over_available (s : TicTacToe) :
  invariant s -> (check_win s).2 = false -> get_available_moves s <> [].
Proof.
  intros [_ Hc _ _ _] Hnot E.
  apply not_over_no_line in Hnot as (_ & _ & Hn).
  rewrite E in Hc. simpl in Hc. lia.
Qed.

(** ** The choice among the scores *)

Lemma fold_max_In (r : list Z) (x : Z) : In (fold_left Z.max r x) (x :: r).
Proof.
  revert x. induction r as [|y r IH]; intros x; simpl; [by left|].
  destruct (IH (Z.max x y)) as [H|H]; [|by right; right].
  rewrite <- H. destruct (Z.max_spec x y) as [[_ ->]|[_ ->]]; tauto.
Qed.

Lemma fold_min_In (r : list Z) (x : Z) : In (fold_left Z.min r x) (x :: r).
Proof.
  revert x. induction r as [|y r IH]; intros x; simpl; [by left|].
  destruct (IH (Z.min x y)) as [H|H]; [|by right; right].
  rewrite <- H. destruct (Z.min_spec x y) as [[_ ->]|[_ ->]]; tauto.
Qed.

Lemma index_from_In (k : nat) (l : list Z) (v : Z) :
  In v l ->
  exists j, Py.index_from k l v = Ok (k + j)%nat /\ (j < length l)%nat.
Proof.
  revert k. induction l as [|x r IH]; intros k Hin; simpl; [done|].
  destruct (Z.eqb_spec x v) as [->|Hne].
  - exists 0%nat. split; [f_equal; lia | lia].
  - destruct Hin as [->|Hin]; [done|].
    destruct (IH (S k) Hin) as (j & -> & Hj).
    exists (S j). split; [f_equal; lia | lia].
Qed.

Lemma choose_ok (maximize : bool) (moves scores : list Z) :
  length moves = length scores -> scores <> [] ->
  exists bestMove bestScore,
    choose maximize moves scores = Ok (bestMove, bestScore)
    /\ In bestMove moves /\ In bestScore scores.
Proof.
  intros Hlen Hne. destruct scores as [|x r]; [done|].
  set (best := if maximize then fold_left Z.max r x else fold_left Z.min r x).
  assert (In best (x :: r)) as Hbest.
  { subst best. destruct maximize; [apply fold_max_In | apply fold_min_In]. }
  assert ((if maximize then Py.max (x :: r) else Py.min (x :: r)) = Ok best)
    as Hm by (by destruct maximize).
  destruct (index_from_In 0 (x :: r) best Hbest) as (j & Hj & Hlt).
  destruct (lookup_lt_is_Some_2 moves j) as [mv Hmv]; [lia|].
  exists mv, best. unfold choose, Py.index. rewrite Hm. simpl.
  simpl in Hj. rewrite Hj. unfold Py.getitem. simpl. rewrite Hmv.
  split; [done|]. split; [|done].
  apply list_elem_of_In, list_elem_of_lookup. eauto.
Qed.

(** ** The search returns *)

Section ExploreOk.

Variable recv : TicTacToe -> result (Z * Z).
Variable s : TicTacToe.
Variable maximize : bool.

(** The loop returns when every possible move is on a blank cell and the
    recursive call after it returns a move that was available. *)
Lemma explore_val_ok (todo moves scores : list Z) :
  (forall m, In m todo ->
     In m (get_available_moves s)
     /\ exists nextMove nextScore,
          recv (add_move s m).1 = Ok (nextMove, nextScore)
          /\ In nextMove (get_available_moves s)) ->
  exists ms ss,
    explore_val recv s maximize todo moves scores
    = Ok (moves ++ ms, scores ++ ss)
    /\ length ms = length todo /\ length ss = length todo
    /\ forall m, In m ms -> In m (get_available_moves s).
Proof.
  revert moves scores.
  induction todo as [|m rest IH]; intros moves scores Hstep; simpl.
  - exists [], []. by rewrite !app_nil_r.
  - destruct (Hstep m) as (Hm & nextMove & nextScore & Hrec & Hnext);
      [by left|].
    pose proof (add_move_available s m Hm) as Hadd.
    rewrite Hadd in *. simpl in *. rewrite Hrec. simpl.
    destruct (IH (moves ++ [if maximize then m else nextMove])
                 (scores ++ [nextScore])) as (ms & ss & -> & Hms & Hss & Hin).
    { intros m' Hm'. apply Hstep. by right. }
    exists ((if maximize then m else nextMove) :: ms), (nextScore :: ss).
    rewrite <- !app_assoc. simpl.
    repeat split; [lia | lia |].
    intros m' [<-|Hm']; [by destruct maximize | by apply Hin].
Qed.

End ExploreOk.

Lemma last_item_snoc {A} (l : list A) (x : A) :
  Py.last_item (l ++ [x]) = Ok x.
Proof. unfold Py.last_item. by rewrite rev_app_distr. Qed.

(** With more fuel than blank cells the search on a reachable game returns
    a move and a score; the move is the last one made if the game is over
    and a blank cell if not. *)
Lemma minimax_val_total (fuel : nat) (s : TicTacToe) (maximize : bool) :
  reachable s ->
  (length (get_available_moves s) < fuel)%nat ->
  exists bestMove bestScore,
    minimax_val fuel s maximize = Ok (bestMove, bestScore)
    /\ if (check_win s).2
       then Py.last_item (allMoves s) = Ok bestMove
       else In bestMove (get_available_moves s).
Proof.
  revert s maximize.
  induction fuel as [|fuel IH]; intros s maximize Hreach Hfuel; [lia|].
  pose proof (reachable_invariant s Hreach) as Hinv.
  simpl. destruct (check_win s) as [winner isOver] eqn:Hwin.
  destruct isOver; simpl.
  - destruct (over_last_move s Hinv) as [m Hm]; [by rewrite Hwin|].
    rewrite Hm. simpl. eauto.
  - assert ((check_win s).2 = false) as Hnot by (by rewrite Hwin).
    destruct (explore_val_ok
                (fun g => minimax_val fuel g (negb maximize)) s maximize
                (get_available_moves s) [] [])
      as (ms & ss & -> & Hms & Hss & Hin).
    { intros m Hm. split; [done|].
      destruct (IH (add_move s m).1 (negb maximize))
        as (mv & sc & Hmv & Hwhere).
      { by constructor. }
      { pose proof (available_shrinks s m Hm). lia. }
      exists mv, sc. split; [done|].
      destruct (check_win (add_move s m).1).2.
      - rewrite add_move_available in Hwhere by done. simpl in Hwhere.
        rewrite last_item_snoc in Hwhere. by injection Hwhere as <-.
      - by apply (available_after s m). }
    simpl.
    destruct (choose_ok maximize ms ss) as (mv & sc & -> & Hmv & _).
    { lia. }
    { pose proof (not_over_available s Hinv Hnot).
      destruct ss; [|done]. destruct (get_available_moves s); simpl in *;
        [done | lia]. }
    exists mv, sc. split; [done | by apply Hin].
Qed.

(** ** The fuel does not matter once there is enough *)

Lemma explore_val_ext (rec1 rec2 : TicTacToe -> result (Z * Z))
      (s : TicTacToe) (maximize : bool) (todo moves scores : list Z) :
  (forall m, In m todo -> rec1 (add_move s m).1 = rec2 (add_move s m).1) ->
  explore_val rec1 s maximize todo moves scores
  = explore_val rec2 s maximize todo moves scores.
Proof.
  revert moves scores.
  induction todo as [|m rest IH]; intros moves scores Hext; simpl; [done|].
  pose proof (Hext m (or_introl eq_refl)) as Hm.
  destruct (add_move s m) as [g r]. simpl in Hm. rewrite Hm.
  destruct r as [[]|e| |]; simpl; try done.
  destruct (rec2 g) as [[nextMove nextScore]|e| |]; simpl; try done.
  apply IH. intros m' Hm'. apply Hext. by right.
Qed.

Lemma minimax_val_fuel (n fuel : nat) (s : TicTacToe) (maximize : bool) :
  (length (get_available_moves s) <= n)%nat -> (n < fuel)%nat ->
  minimax_val fuel s maximize = minimax_val (S n) s maximize.
Proof.
  revert fuel s maximize.
  induction n as [|n IH]; intros [|fuel] s maximize Hlen Hfuel; try lia.
  - simpl. destruct (check_win s) as [winner [|]]; [done|].
    destruct (get_available_moves s); [done | simpl in Hlen; lia].
  - change (minimax_val (S fuel) s maximize)
      with (let '(winner, isOver) := check_win s in
            if isOver : bool then
              bestMove ← Py.last_item (allMoves s);
              mret (bestMove, final_score winner (get_num_moves s))
            else
              '(moves, scores) ←
                explore_val (fun g => minimax_val fuel g (negb maximize))
                            s maximize (get_available_moves s) [] [];
              choose maximize moves scores).
    change (minimax_val (S (S n)) s maximize)
      with (let '(winner, isOver) := check_win s in
            if isOver : bool then
              bestMove ← Py.last_item (allMoves s);
              mret (bestMove, final_score winner (get_num_moves s))
            else
              '(moves, scores) ←
                explore_val (fun g => minimax_val (S n) g (negb maximize))
                            s maximize (get_available_moves s) [] [];
              choose maximize moves scores).
    destruct (check_win s) as [winner [|]]; [done|].
    rewrite (explore_val_ext
               (fun g => minimax_val fuel g (negb maximize))
               (fun g => minimax_val (S n) g (negb maximize))); [done|].
    intros m Hm. apply IH; [|lia].
    pose proof (available_shrinks s m Hm). lia.
Qed.

(** On a board of nine cells ten units of fuel are enough. *)
Lemma minimax_val_ten (fuel : nat) (s : TicTacToe) (maximize : bool) :
  length (currentBoard s) = 9%nat -> (9 < fuel)%nat ->
  minimax_val fuel s maximize = minimax_val 10 s maximize.
Proof.
  intros Hb Hfuel. apply minimax_val_fuel; [|done].
  pose proof (blanks_from_length 0 (currentBoard s)).
  unfold get_available_moves. lia.
Qed.

(** * The claims *)

(** ** Applying a move *)

(** C1, as the code has it: [add_move] checks nothing. On a board of nine
    cells an index from 0 to 8 is always accepted, on a blank cell or not:
    the move goes to the history of the player whose turn it is and to the
    combined history, the cell takes that player's mark and the turn
    passes. An index from -9 to -1 counts from the end of the board. Any
    other index raises [IndexError], with the board and the turn as they
    were. *)
Theorem add_move_unchecked (s : TicTacToe) (i : Z) :
  length (currentBoard s) = 9%nat ->
  (0 <= i <= 8 -> add_move s i = (moved s i (Z.to_nat i), Ok tt))
  /\ (-9 <= i < 0 -> add_move s i = (moved s i (Z.to_nat (9 + i)), Ok tt))
  /\ (i < -9 \/ 8 < i ->
      exists s', add_move s i = (s', Raise IndexError)
                 /\ currentBoard s' = currentBoard s
                 /\ currentPlayer s' = currentPlayer s).
Proof.
  intros Hb. split; [|split].
  - intros Hi. apply add_move_in_range. lia.
  - intros Hi. unfold add_move, moved, mark, Py.setitem. rewrite Hb.
    destruct (Z.leb_spec 0 i); [lia|].
    destruct (Z.leb_spec (- Z.of_nat 9) i); [|lia].
    destruct (Z.ltb_spec i 0); [|lia]. simpl.
    by destruct (currentPlayer s =? PLAYER_ONE).
  - intros Hi. unfold add_move, Py.setitem. rewrite Hb.
    destruct (currentPlayer s =? PLAYER_ONE).
    all: destruct (Z.leb_spec 0 i), (Z.ltb_spec i (Z.of_nat 9)),
           (Z.leb_spec (- Z.of_nat 9) i), (Z.ltb_spec i 0); try lia.
    all: simpl; eauto.
Qed.

Lemma add_move_unchecked_witness :
  let s := play [4] in
  add_move s 4 = (moved s 4 4, Ok tt)
  /\ add_move s (-5) = (moved s (-5) 4, Ok tt)
  /\ exists s', add_move s 9 = (s', Raise IndexError)
                /\ currentBoard s' = currentBoard s
                /\ currentPlayer s' = currentPlayer s.
Proof.
  intros s.
  destruct (add_move_unchecked s 4 eq_refl) as (H & _ & _).
  destruct (add_move_unchecked s (-5) eq_refl) as (_ & H' & _).
  destruct (add_move_unchecked s 9 eq_refl) as (_ & _ & H'').
  split; [apply H; lia | split; [apply H'; lia | apply H''; lia]].
Defined.

(** C1 as stated fails: a move on the occupied cell 4 is accepted and
    overwrites the cell, and the out-of-range index 9 raises only after
    both histories were appended. *)
Lemma add_move_occupied_accepted :
  let s := play [4] in
  currentBoard s !! 4%nat = Some "x"%string
  /\ (add_move s 4).2 = Ok tt
  /\ (add_move s 4).1 <> s
  /\ currentBoard (add_move s 4).1 !! 4%nat = Some "o"%string
  /\ allMoves (add_move s 4).1 = [4; 4]
  /\ (add_move s 9).2 = Raise IndexError
  /\ (add_move s 9).1 <> s
  /\ allMoves (add_move s 9).1 = [4; 9]
  /\ playerTwoMoves (add_move s 9).1 = [9].
Proof. by repeat split. Qed.

(** ** Invariants of reachable games *)

(** C6: in every game reachable from the new game by moves on blank cells,
    the number of available moves plus the length of [allMoves] is 9, and
    every further move on a blank cell succeeds and keeps it so. *)
Theorem available_plus_moves (s : TicTacToe) :
  reachable s ->
  (length (get_available_moves s) + length (allMoves s) = 9)%nat
  /\ forall m, In m (get_available_moves s) ->
       (add_move s m).2 = Ok tt
       /\ (length (get_available_moves (add_move s m).1)
           + length (allMoves (add_move s m).1) = 9)%nat.
Proof.
  intros Hreach. split; [apply reachable_invariant, Hreach|].
  intros m Hm. split; [by rewrite add_move_available|].
  apply reachable_invariant. by constructor.
Qed.

Lemma available_plus_moves_witness :
  (length (get_available_moves init) + length (allMoves init) = 9)%nat
  /\ forall m, In m (get_available_moves init) ->
       (add_move init m).2 = Ok tt
       /\ (length (get_available_moves (add_move init m).1)
           + length (allMoves (add_move init m).1) = 9)%nat.
Proof. apply (available_plus_moves init). apply reachable_init. Defined.

Lemma of_nat_even (n : nat) : (Z.of_nat n mod 2 =? 0) = Nat.even n.
Proof.
  destruct (Nat.even n) eqn:E.
  - apply Nat.even_spec in E as [k ->].
    rewrite Nat2Z.inj_mul, Z.mul_comm, Z.mod_mul by lia. done.
  - assert (Nat.odd n = true) as O by (by rewrite <- Nat.negb_even, E).
    apply Nat.odd_spec in O as [k ->].
    rewrite Nat2Z.inj_add, Nat2Z.inj_mul, Z.add_comm, Z.mul_comm.
    rewrite Z.mod_add by lia. done.
Qed.

(** C7: the new game has PLAYER_ONE to move; in every reachable game the
    player to move is PLAYER_ONE after an even number of moves and
    PLAYER_TWO after an odd number, and every move passes the turn. *)
Theorem turn_parity (s : TicTacToe) :
  reachable s ->
  currentPlayer init = PLAYER_ONE
  /\ currentPlayer s
     = (if get_num_moves s mod 2 =? 0 then PLAYER_ONE else PLAYER_TWO)
  /\ forall m, In m (get_available_moves s) ->
       currentPlayer (add_move s m).1
       = if currentPlayer s =? PLAYER_ONE then PLAYER_TWO else PLAYER_ONE.
Proof.
  intros Hreach. destruct (reachable_invariant s Hreach) as [_ _ Ht _ _].
  split; [done|]. split.
  - unfold get_num_moves. by rewrite of_nat_even.
  - intros m Hm. rewrite add_move_available by done. simpl. rewrite Ht.
    by destruct (Nat.even (length (allMoves s))).
Qed.

Lemma turn_parity_witness :
  let s := play [4; 0; 8] in
  currentPlayer init = PLAYER_ONE
  /\ currentPlayer s
     = (if get_num_moves s mod 2 =? 0 then PLAYER_ONE else PLAYER_TWO)
  /\ forall m, In m (get_available_moves s) ->
       currentPlayer (add_move s m).1
       = if currentPlayer s =? PLAYER_ONE then PLAYER_TWO else PLAYER_ONE.
Proof.
  apply (turn_parity (play [4; 0; 8])).
  unfold play. cbn [fold_left].
  repeat (first [apply reachable_init
                | apply reachable_move; [|vm_compute; tauto]]).
Defined.

(** C10: [add_move] is given no player; on a blank cell it records the move
    for the player whose turn it is, with that player's mark. So in every
    reachable game [playerOneMoves] is the entries of [allMoves] at the even
    positions and [playerTwoMoves] the entries at the odd positions. *)
Theorem histories_alternate (s : TicTacToe) :
  reachable s ->
  playerOneMoves s = evens (allMoves s)
  /\ playerTwoMoves s = odds (allMoves s)
  /\ forall m, In m (get_available_moves s) ->
       add_move s m = (moved s m (Z.to_nat m), Ok tt)
       /\ currentBoard (add_move s m).1 !! Z.to_nat m = Some (mark s).
Proof.
  intros Hreach. destruct (reachable_invariant s Hreach) as [_ _ _ H1 H2].
  repeat split; try done.
  - by apply add_move_available.
  - rewrite add_move_available by done. simpl.
    apply list_lookup_insert_eq.
    apply available_in_range in H. lia.
Qed.

Lemma histories_alternate_witness :
  let s := play [4; 0; 8] in
  playerOneMoves s = evens (allMoves s)
  /\ playerTwoMoves s = odds (allMoves s)
  /\ forall m, In m (get_available_moves s) ->
       add_move s m = (moved s m (Z.to_nat m), Ok tt)
       /\ currentBoard (add_move s m).1 !! Z.to_nat m = Some (mark s).
Proof.
  apply (histories_alternate (play [4; 0; 8])).
  unfold play. cbn [fold_left].
  repeat (first [apply reachable_init
                | apply reachable_move; [|vm_compute; tauto]]).
Defined.

(** ** The end of a game *)

(** C4: in a game played by the rules [check_win] names PLAYER_ONE as the
    winner exactly when [playerOneMoves] contains one of the eight lines,
    PLAYER_TWO exactly when [playerTwoMoves] does, and -1 otherwise; it
    reports the game over exactly when there is a winner or no cell of the
    nine is blank. *)
Theorem check_win_exact (s : TicTacToe) :
  well_formed s ->
  ((check_win s).1 = PLAYER_ONE <-> holds_line (playerOneMoves s))
  /\ ((check_win s).1 = PLAYER_TWO <-> holds_line (playerTwoMoves s))
  /\ ((check_win s).1 = PLAYER_ONE \/ (check_win s).1 = PLAYER_TWO
      \/ (check_win s).1 = -1)
  /\ ((check_win s).2 = true <->
      (check_win s).1 = PLAYER_ONE \/ (check_win s).1 = PLAYER_TWO
      \/ (length (currentBoard s) = 9%nat /\ board_full s)).
Proof.
  intros Hwf.
  pose proof (reachable_invariant s (well_formed_reachable s Hwf)) as Hinv.
  pose proof (full_iff_nine s Hinv) as Hfull.
  pose proof (inv_board s Hinv) as Hb.
  rewrite <- !has_line_holds.
  destruct (well_formed_one_sided s Hwf) as [Hside|Hside];
    destruct (check_win_cases s) as [(H1 & H2 & ->)|[[H ->]|[H ->]]];
    simpl; rewrite ?H1, ?H2, ?H, ?Hside; try congruence.
  all: rewrite ?Nat.eqb_eq; unfold PLAYER_ONE, PLAYER_TWO.
  all: repeat split; try tauto; try congruence; try lia.
  all: try (intros [?|[?|?]]; (lia || tauto)).
Qed.

Lemma check_win_exact_witness :
  let s := play [0; 3; 1; 4; 2] in
  ((check_win s).1 = PLAYER_ONE <-> holds_line (playerOneMoves s))
  /\ ((check_win s).1 = PLAYER_TWO <-> holds_line (playerTwoMoves s))
  /\ ((check_win s).1 = PLAYER_ONE \/ (check_win s).1 = PLAYER_TWO
      \/ (check_win s).1 = -1)
  /\ ((check_win s).2 = true <->
      (check_win s).1 = PLAYER_ONE \/ (check_win s).1 = PLAYER_TWO
      \/ (length (currentBoard s) = 9%nat /\ board_full s)).
Proof.
  apply (check_win_exact (play [0; 3; 1; 4; 2])).
  unfold play. cbn [fold_left].
  repeat (first [apply well_formed_init
                | apply well_formed_move;
                  [|vm_compute; reflexivity|vm_compute; tauto]]).
Defined.

(** Beyond the rules, when moves go on after a win, both players can hold
    a line; the combination checked last then decides. *)
Example check_win_both_lines :
  let s := play [0; 3; 1; 4; 2; 5; 6; 8; 7] in
  reachable s
  /\ has_line (playerOneMoves s) = true
  /\ has_line (playerTwoMoves s) = true
  /\ check_win s = (PLAYER_TWO, true).
Proof.
  split; [|by vm_compute].
  unfold play. cbn [fold_left].
  repeat (first [apply reachable_init
                | apply reachable_move; [|vm_compute; tauto]]).
Qed.

(** ** The search *)

(** With x on 0 and 1 and o on 3 and 4, the move of x on 2 wins at once. *)
Example scenario_x_wins :
  currentBoard (play [0; 3; 1; 4])
  = ["x"; "x"; " "; "o"; "o"; " "; " "; " "; " "]%string
  /\ check_win (play [0; 3; 1; 4]) = (-1, false)
  /\ check_win (add_move (play [0; 3; 1; 4]) 2).1 = (PLAYER_ONE, true).
Proof. by vm_compute. Qed.

(** With o on 3 and 4, cell 5 blank and o to move, the search takes 5 and
    scores the win of o after six moves. *)
Example scenario_o_takes_line :
  minimax_val 10 (play [0; 3; 8; 4; 1]) true = Ok (5, 10 - 6).
Proof. by vm_compute. Qed.

(** C5: on a reachable game that is over, the search returns the score
    [numMoves - 10], negative, if PLAYER_ONE is the winner, [10 - numMoves],
    positive, if PLAYER_TWO is, and 0 if nobody is. *)
Theorem terminal_score (h : store) (self : ref) (s : TicTacToe)
        (maximize : bool) (fuel : nat) :
  h !! self = Some s ->
  reachable s ->
  (check_win s).2 = true ->
  (0 < fuel)%nat ->
  exists h' bestMove bestScore,
    minimax fuel self maximize h = (h', Ok (bestMove, bestScore))
    /\ ((check_win s).1 = PLAYER_ONE ->
        bestScore = get_num_moves s - 10 /\ bestScore < 0)
    /\ ((check_win s).1 = PLAYER_TWO ->
        bestScore = 10 - get_num_moves s /\ 0 < bestScore)
    /\ ((check_win s).1 <> PLAYER_ONE -> (check_win s).1 <> PLAYER_TWO ->
        bestScore = 0).
Proof.
  intros Hs Hreach Hover Hfuel.
  pose proof (reachable_invariant s Hreach) as Hinv.
  destruct (minimax_refines fuel self maximize h s Hs) as [k Hk].
  destruct fuel as [|fuel]; [lia|].
  destruct (over_last_move s Hinv Hover) as [m Hm].
  simpl in Hk. destruct (check_win s) as [winner isOver].
  simpl in Hover. subst isOver. rewrite Hm in Hk. simpl in Hk.
  exists (h ++ k), m, (final_score winner (get_num_moves s)).
  split; [done|]. simpl.
  pose proof (inv_count s Hinv) as Hc.
  unfold final_score, get_num_moves.
  split; [|split].
  - intros ->. simpl. lia.
  - intros ->. simpl. lia.
  - intros H1 H2.
    destruct (Z.eqb_spec winner PLAYER_ONE); [done|].
    by destruct (Z.eqb_spec winner PLAYER_TWO).
Qed.

Lemma terminal_score_witness :
  let s := play [0; 3; 1; 4; 2] in
  exists h' bestMove bestScore,
    minimax 1 0%nat true [s] = (h', Ok (bestMove, bestScore))
    /\ ((check_win s).1 = PLAYER_ONE ->
        bestScore = get_num_moves s - 10 /\ bestScore < 0)
    /\ ((check_win s).1 = PLAYER_TWO ->
        bestScore = 10 - get_num_moves s /\ 0 < bestScore)
    /\ ((check_win s).1 <> PLAYER_ONE -> (check_win s).1 <> PLAYER_TWO ->
        bestScore = 0).
Proof.
  intros s.
  apply (terminal_score [s] 0%nat s true 1);
    [reflexivity | | reflexivity | lia].
  subst s. unfold play. cbn [fold_left].
  repeat (first [apply reachable_init
                | apply reachable_move; [|vm_compute; tauto]]).
Defined.

(** C2: on a game played by the rules that is not over, the search returns,
    for either value of [maximize], a move among the available moves: the
    cell at the returned index is blank. *)
Theorem minimax_move_available (h : store) (self : ref) (s : TicTacToe)
        (maximize : bool) (fuel : nat) :
  h !! self = Some s ->
  well_formed s ->
  (check_win s).2 = false ->
  (length (get_available_moves s) < fuel)%nat ->
  exists h' bestMove bestScore,
    minimax fuel self maximize h = (h', Ok (bestMove, bestScore))
    /\ In bestMove (get_available_moves s)
    /\ currentBoard s !! Z.to_nat bestMove = Some " "%string.
Proof.
  intros Hs Hwf Hnot Hfuel.
  destruct (minimax_refines fuel self maximize h s Hs) as [k Hk].
  destruct (minimax_val_total fuel s maximize) as (mv & sc & Hv & Hmv);
    [by apply well_formed_reachable | done |].
  rewrite Hnot in Hmv. rewrite Hv in Hk.
  exists (h ++ k), mv, sc. repeat split; [done | done |].
  by apply available_blank in Hmv as [_ Hmv].
Qed.

Lemma minimax_move_available_witness :
  let s := play [0; 4; 8; 2; 6] in
  exists h' bestMove bestScore,
    minimax 5 0%nat false [s] = (h', Ok (bestMove, bestScore))
    /\ In bestMove (get_available_moves s)
    /\ currentBoard s !! Z.to_nat bestMove = Some " "%string.
Proof.
  intros s.
  apply (minimax_move_available [s] 0%nat s false 5);
    [reflexivity | | reflexivity | vm_compute; lia].
  subst s. unfold play. cbn [fold_left].
  repeat (first [apply well_formed_init
                | apply well_formed_move;
                  [|vm_compute; reflexivity|vm_compute; tauto]]).
Defined.

Lemma minimax_val_empty_board : minimax_val 10 init true = Ok (4, 0).
Proof. vm_cast_no_check (eq_refl (@Ok (Z * Z) (4, 0))). Qed.

(** C3: the search with [maximize] true on a newly created game returns
    the score 0. *)
Theorem minimax_empty_board (h : store) (fuel : nat) :
  (9 < fuel)%nat ->
  exists h' bestMove,
    (self ← new; minimax fuel self true) h = (h', Ok (bestMove, 0)).
Proof.
  intros Hfuel. unfold mbind, M_bind, new.
  destruct (minimax_refines fuel (length h) true (h ++ [init]) init
              (lookup_fresh h init)) as [k ->].
  rewrite minimax_val_ten by done. rewrite minimax_val_empty_board.
  by exists ((h ++ [init]) ++ k), 4.
Qed.

Lemma minimax_empty_board_witness :
  exists h' bestMove,
    (self ← new; minimax 10 self true) [] = (h', Ok (bestMove, 0)).
Proof. apply (minimax_empty_board [] 10). lia. Defined.

(** C8: the search leaves the game it is called on as it was, and every
    other game of the store with it; whatever it writes, it writes to the
    copies it makes. *)
Theorem minimax_frame (h : store) (self : ref) (s : TicTacToe)
        (maximize : bool) (fuel : nat) :
  h !! self = Some s ->
  (minimax fuel self maximize h).1 !! self = Some s
  /\ forall (other : ref) (o : TicTacToe),
       h !! other = Some o ->
       (minimax fuel self maximize h).1 !! other = Some o.
Proof.
  intros Hs.
  destruct (minimax_refines fuel self maximize h s Hs) as [k ->]. simpl.
  split; [by apply lookup_kept|]. intros other o. apply lookup_kept.
Qed.

Lemma minimax_frame_witness :
  let s := play [0; 4; 8; 2; 6] in
  (minimax 5 1%nat true [init; s]).1 !! 1%nat = Some s
  /\ forall (other : ref) (o : TicTacToe),
       [init; s] !! other = Some o ->
       (minimax 5 1%nat true [init; s]).1 !! other = Some o.
Proof.
  intros s. apply (minimax_frame [init; s] 1%nat s true 5). reflexivity.
Defined.

(** C9: on a game played by the rules that is not over the search returns:
    the board has at most 9 blank cells, each possible move leaves one
    fewer, and with more fuel than blank cells the search ends with a move
    and a score that do not depend on the fuel. *)
Theorem minimax_total (h : store) (self : ref) (s : TicTacToe)
        (maximize : bool) :
  h !! self = Some s ->
  well_formed s ->
  (check_win s).2 = false ->
  (length (get_available_moves s) <= 9)%nat
  /\ (forall m, In m (get_available_moves s) ->
        S (length (get_available_moves (add_move s m).1))
        = length (get_available_moves s))
  /\ exists bestMove bestScore,
       forall fuel, (length (get_available_moves s) < fuel)%nat ->
         exists h', minimax fuel self maximize h
                    = (h', Ok (bestMove, bestScore)).
Proof.
  intros Hs Hwf Hnot.
  pose proof (well_formed_reachable s Hwf) as Hreach.
  pose proof (inv_count s (reachable_invariant s Hreach)) as Hc.
  split; [lia|]. split; [apply available_shrinks|].
  destruct (minimax_val_total (S (length (get_available_moves s))) s maximize)
    as (mv & sc & Hv & _); [done | lia |].
  exists mv, sc. intros fuel Hfuel.
  destruct (minimax_refines fuel self maximize h s Hs) as [k ->].
  exists (h ++ k). f_equal. rewrite <- Hv. by apply minimax_val_fuel.
Qed.

Lemma minimax_total_witness :
  let s := play [0; 4; 8; 2; 6] in
  (length (get_available_moves s) <= 9)%nat
  /\ (forall m, In m (get_available_moves s) ->
        S (length (get_available_moves (add_move s m).1))
        = length (get_available_moves s))
  /\ exists bestMove bestScore,
       forall fuel, (length (get_available_moves s) < fuel)%nat ->
         exists h', minimax fuel 0%nat true [s]
                    = (h', Ok (bestMove, bestScore)).
Proof.
  intros s.
  apply (minimax_total [s] 0%nat s true); [reflexivity | | reflexivity].
  subst s. unfold play. cbn [fold_left].
  repeat (first [apply well_formed_init
                | apply well_formed_move;
                  [|vm_compute; reflexivity|vm_compute; tauto]]).
Defined.

(** * Further properties *)

(** ** The available moves *)

Lemma blanks_from_sorted (i : Z) (board : list string) :
  StronglySorted Z.lt (blanks_from i board).
Proof.
  revert i. induction board as [|value rest IH]; intros i; simpl.
  - constructor.
  - destruct (String.eqb value " "); [|apply IH].
    constructor; [apply IH|].
    apply List.Forall_forall. intros m Hm.
    apply blanks_from_range in Hm. lia.
Qed.

(** X1: [get_available_moves] lists the indices of the blank cells, all of
    them and nothing else, in strictly ascending order. *)
Theorem available_moves_sorted (s : TicTacToe) :
  StronglySorted Z.lt (get_available_moves s)
  /\ forall m,
       In m (get_available_moves s) <->
       0 <= m < Z.of_nat (length (currentBoard s))
       /\ currentBoard s !! Z.to_nat m = Some " "%string.
Proof.
  split; [apply blanks_from_sorted|].
  intros m. rewrite available_blank. split.
  - intros [H0 Hm]. split; [|done].
    apply lookup_lt_Some in Hm. lia.
  - intros [[H0 _] Hm]. done.
Qed.

Lemma filter_all (i : Z) (l : list Z) :
  (forall m, In m l -> m <> i) ->
  List.filter (fun m => negb (m =? i)) l = l.
Proof.
  induction l as [|x r IH]; intros H; simpl; [done|].
  destruct (Z.eqb_spec x i) as [->|_]; simpl.
  - by destruct (H i (or_introl eq_refl)).
  - rewrite IH; [done|]. intros m Hm. apply H. by right.
Qed.

Lemma blanks_from_insert (i : Z) (board : list string) (k : nat)
      (symbol : string) :
  (k < length board)%nat -> symbol <> " "%string ->
  blanks_from i (<[k := symbol]> board)
  = List.filter (fun m => negb (m =? i + Z.of_nat k)) (blanks_from i board).
Proof.
  intros Hk Hsym. revert i k Hk.
  induction board as [|value rest IH]; intros i [|k] Hk; simpl in *;
    try lia.
  - destruct (String.eqb_spec symbol " ") as [|_]; [done|].
    assert (List.filter (fun m => negb (m =? i + Z.of_nat 0))
                        (blanks_from (i + 1) rest)
            = blanks_from (i + 1) rest) as Hrest.
    { apply filter_all. intros m Hm. apply blanks_from_range in Hm. lia. }
    destruct (String.eqb value " "); simpl; [|done].
    destruct (Z.eqb_spec i (i + Z.of_nat 0)); [done | lia].
  - specialize (IH (i + 1) k ltac:(lia)).
    replace (i + 1 + Z.of_nat k) with (i + Z.of_nat (S k)) in IH by lia.
    destruct (String.eqb value " "); simpl; [|done].
    destruct (Z.eqb_spec i (i + Z.of_nat (S k))); [lia|]. simpl.
    by rewrite IH.
Qed.

(** X2: after [add_move] on a cell of the board, blank or not, the
    available moves are those before without that index, in the same
    order; a move on an occupied cell leaves them as they were. *)
Theorem add_move_available_moves (s : TicTacToe) (i : Z) :
  0 <= i < Z.of_nat (length (currentBoard s)) ->
  get_available_moves (add_move s i).1
  = List.filter (fun m => negb (m =? i)) (get_available_moves s)
  /\ (~ In i (get_available_moves s) ->
      get_available_moves (add_move s i).1 = get_available_moves s).
Proof.
  intros Hi.
  assert (get_available_moves (add_move s i).1
          = List.filter (fun m => negb (m =? i)) (get_available_moves s))
    as Heq.
  { rewrite add_move_in_range by done. unfold get_available_moves, moved.
    cbn [fst currentBoard].
    rewrite blanks_from_insert; [|lia|apply mark_not_blank].
    by replace (0 + Z.of_nat (Z.to_nat i)) with i by lia. }
  split; [done|]. intros Hnot. rewrite Heq.
  apply filter_all. by intros m Hm ->.
Qed.

Lemma add_move_available_moves_witness :
  let s := play [4; 0] in
  get_available_moves (add_move s 4).1
  = List.filter (fun m => negb (m =? 4)) (get_available_moves s)
  /\ (~ In 4 (get_available_moves s) ->
      get_available_moves (add_move s 4).1 = get_available_moves s).
Proof.
  intros s. apply (add_move_available_moves s 4). vm_compute.
  split; [discriminate | reflexivity].
Defined.

(** X3: when the index is outside the board, [add_move] raises
    [IndexError] only after it has appended the index to the history of the
    player to move and to [allMoves]: the game it leaves counts one move
    more, with the board and the turn as they were. *)
Theorem add_move_index_error (s : TicTacToe) (i : Z) :
  i < - Z.of_nat (length (currentBoard s))
  \/ Z.of_nat (length (currentBoard s)) <= i ->
  (add_move s i).2 = Raise IndexError
  /\ currentBoard (add_move s i).1 = currentBoard s
  /\ currentPlayer (add_move s i).1 = currentPlayer s
  /\ allMoves (add_move s i).1 = allMoves s ++ [i]
  /\ get_num_moves (add_move s i).1 = get_num_moves s + 1
  /\ (if currentPlayer s =? PLAYER_ONE
      then playerOneMoves (add_move s i).1 = playerOneMoves s ++ [i]
           /\ playerTwoMoves (add_move s i).1 = playerTwoMoves s
      else playerOneMoves (add_move s i).1 = playerOneMoves s
           /\ playerTwoMoves (add_move s i).1 = playerTwoMoves s ++ [i]).
Proof.
  intros Hi. unfold add_move, Py.setitem, get_num_moves.
  destruct (currentPlayer s =? PLAYER_ONE).
  all: destruct (Z.leb_spec 0 i),
         (Z.ltb_spec i (Z.of_nat (length (currentBoard s)))),
         (Z.leb_spec (- Z.of_nat (length (currentBoard s))) i),
         (Z.ltb_spec i 0); try lia.
  all: simpl; rewrite length_app; simpl; repeat split; lia.
Qed.

Lemma add_move_index_error_witness :
  let s := play [4; 0] in
  (add_move s 9).2 = Raise IndexError
  /\ currentBoard (add_move s 9).1 = currentBoard s
  /\ currentPlayer (add_move s 9).1 = currentPlayer s
  /\ allMoves (add_move s 9).1 = allMoves s ++ [9]
  /\ get_num_moves (add_move s 9).1 = get_num_moves s + 1
  /\ (if currentPlayer s =? PLAYER_ONE
      then playerOneMoves (add_move s 9).1 = playerOneMoves s ++ [9]
           /\ playerTwoMoves (add_move s 9).1 = playerTwoMoves s
      else playerOneMoves (add_move s 9).1 = playerOneMoves s
           /\ playerTwoMoves (add_move s 9).1 = playerTwoMoves s ++ [9]).
Proof.
  intros s. apply (add_move_index_error s 9). right. vm_compute.
  discriminate.
Defined.

(** ** The winner *)

(** X4: on any game whatever, [check_win] names as winner only a player
    whose moves contain one of the eight lines, names nobody exactly when
    neither player's moves do, and reports the game over exactly when it
    names a winner or [allMoves] has 9 entries. *)
Theorem check_win_sound (s : TicTacToe) :
  ((check_win s).1 = PLAYER_ONE -> holds_line (playerOneMoves s))
  /\ ((check_win s).1 = PLAYER_TWO -> holds_line (playerTwoMoves s))
  /\ ((check_win s).1 = -1 <->
      ~ holds_line (playerOneMoves s) /\ ~ holds_line (playerTwoMoves s))
  /\ ((check_win s).1 = PLAYER_ONE \/ (check_win s).1 = PLAYER_TWO
      \/ (check_win s).1 = -1)
  /\ ((check_win s).2 = true <->
      (check_win s).1 <> -1 \/ length (allMoves s) = 9%nat).
Proof.
  rewrite <- !has_line_holds.
  destruct (check_win_cases s) as [(H1 & H2 & ->)|[[H ->]|[H ->]]];
    simpl; rewrite ?H1, ?H2, ?H, ?Nat.eqb_eq; unfold PLAYER_ONE, PLAYER_TWO.
  all: repeat split; try tauto; try congruence; try lia.
  all: try (intros [? ?]; congruence).
  all: try (intros [?|?]; (lia || tauto)).
Qed.

Lemma has_line_length (moves : list Z) :
  has_line moves = true -> (3 <= length moves)%nat.
Proof.
  rewrite has_line_holds. intros (a & b & c & Hin & Ha & Hb & Hc).
  assert (List.NoDup [a; b; c]) as Hnd.
  { unfold WinningLines in Hin. simpl in Hin.
    repeat destruct Hin as [Hin|Hin]; try done.
    all: injection Hin as <- <- <-.
    all: repeat (constructor; [simpl; lia|]); constructor. }
  apply (List.NoDup_incl_length Hnd).
  intros x [<-|[<-|[<-|[]]]]; done.
Qed.

Lemma picks_length {A} (keep : bool) (l : list A) :
  (2 * length (picks keep l) <= length l + (if keep then 1 else 0))%nat.
Proof.
  revert keep. induction l as [|x r IH]; intros keep; simpl.
  - destruct keep; simpl; lia.
  - specialize (IH (negb keep)). destruct keep; simpl in *; lia.
Qed.

Lemma winner_one_moves (s : TicTacToe) :
  invariant s -> has_line (playerOneMoves s) = true ->
  5 <= get_num_moves s.
Proof.
  intros [_ _ _ H1 _] Hline. apply has_line_length in Hline.
  rewrite H1 in Hline. pose proof (picks_length true (allMoves s)).
  unfold evens in Hline. unfold get_num_moves. simpl in *. lia.
Qed.

Lemma winner_two_moves (s : TicTacToe) :
  invariant s -> has_line (playerTwoMoves s) = true ->
  6 <= get_num_moves s.
Proof.
  intros [_ _ _ _ H2] Hline. apply has_line_length in Hline.
  rewrite H2 in Hline. pose proof (picks_length false (allMoves s)).
  unfold odds in Hline. unfold get_num_moves. simpl in *. lia.
Qed.

(** X5: in a game played by the rules the winner is the player who made
    the last move: when PLAYER_ONE is the winner it is PLAYER_TWO's turn
    and at least 5 moves were made, when PLAYER_TWO is the winner it is
    PLAYER_ONE's turn and at least 6 moves were made. *)
Theorem winner_moved_last (s : TicTacToe) :
  well_formed s ->
  ((check_win s).1 = PLAYER_ONE ->
   currentPlayer s = PLAYER_TWO /\ 5 <= get_num_moves s)
  /\ ((check_win s).1 = PLAYER_TWO ->
      currentPlayer s = PLAYER_ONE /\ 6 <= get_num_moves s).
Proof.
  intros Hwf.
  pose proof (reachable_invariant s (well_formed_reachable s Hwf)) as Hinv.
  destruct (check_win_sound s) as (W1 & W2 & _).
  rewrite <- has_line_holds in W1, W2.
  split; intros Hw.
  - specialize (W1 Hw). split; [|by apply winner_one_moves].
    destruct Hwf as [|s0 m Hwf0 Hnot Hm]; [done|].
    apply not_over_no_line in Hnot as (H1 & _ & _).
    pose proof (reachable_invariant s0 (well_formed_reachable s0 Hwf0))
      as [_ _ Ht _ _].
    rewrite add_move_available in * by done. simpl in *.
    destruct (Z.eqb_spec (currentPlayer s0) PLAYER_ONE) as [->|_];
      [done | congruence].
  - specialize (W2 Hw). split; [|by apply winner_two_moves].
    destruct Hwf as [|s0 m Hwf0 Hnot Hm]; [done|].
    apply not_over_no_line in Hnot as (_ & H2 & _).
    pose proof (reachable_invariant s0 (well_formed_reachable s0 Hwf0))
      as [_ _ Ht _ _].
    rewrite add_move_available in * by done. simpl in *.
    destruct (Z.eqb_spec (currentPlayer s0) PLAYER_ONE) as [E|E];
      [congruence|].
    rewrite Ht in *. by destruct (Nat.even (length (allMoves s0))).
Qed.

Lemma winner_moved_last_witness :
  let s := play [0; 3; 1; 4; 2] in
  ((check_win s).1 = PLAYER_ONE ->
   currentPlayer s = PLAYER_TWO /\ 5 <= get_num_moves s)
  /\ ((check_win s).1 = PLAYER_TWO ->
      currentPlayer s = PLAYER_ONE /\ 6 <= get_num_moves s).
Proof.
  apply (winner_moved_last (play [0; 3; 1; 4; 2])).
  unfold play. cbn [fold_left].
  repeat (first [apply well_formed_init
                | apply well_formed_move;
                  [|vm_compute; reflexivity|vm_compute; tauto]]).
Defined.

Lemma holds_line_app (moves : list Z) (m : Z) :
  holds_line moves -> holds_line (moves ++ [m]).
Proof.
  intros (a & b & c & Hin & Ha & Hb & Hc). exists a, b, c.
  rewrite !in_app_iff. tauto.
Qed.

(** X6: a reachable game that [check_win] reports over is still reported
    over after any further move on a blank cell. *)
Theorem over_stays_over (s : TicTacToe) (m : Z) :
  reachable s ->
  (check_win s).2 = true ->
  In m (get_available_moves s) ->
  (check_win (add_move s m).1).2 = true.
Proof.
  intros Hreach Hover Hm.
  pose proof (inv_count s (reachable_invariant s Hreach)) as Hc.
  destruct (check_win_sound s) as (W1 & W2 & _ & Hw & Ho).
  destruct (check_win_sound (add_move s m).1) as (_ & _ & Hn & _ & Ho').
  apply Ho'. left. rewrite Hn.
  rewrite add_move_available by done. simpl.
  apply Ho in Hover as [Hover|Hnine].
  - destruct Hw as [Hw|[Hw|Hw]]; [| |done].
    + intros [H _]. apply H.
      destruct (currentPlayer s =? PLAYER_ONE);
        [apply holds_line_app|]; by apply W1.
    + intros [_ H]. apply H.
      destruct (currentPlayer s =? PLAYER_ONE);
        [|apply holds_line_app]; by apply W2.
  - destruct (get_available_moves s); [done | simpl in Hc; lia].
Qed.

Lemma over_stays_over_witness :
  (check_win (add_move (play [0; 3; 1; 4; 2]) 5).1).2 = true.
Proof.
  apply (over_stays_over (play [0; 3; 1; 4; 2]) 5);
    [|reflexivity|vm_compute; tauto].
  unfold play. cbn [fold_left].
  repeat (first [apply reachable_init
                | apply reachable_move; [|vm_compute; tauto]]).
Defined.

(** ** The result of the search *)

Lemma returns_val (s : TicTacToe) (maximize : bool) (bestMove bestScore : Z) :
  returns s maximize bestMove bestScore <->
  minimax_val (S (length (get_available_moves s))) s maximize
  = Ok (bestMove, bestScore).
Proof.
  split.
  - intros H.
    destruct (H [s] 0%nat (S (length (get_available_moves s))) eq_refl)
      as [h' Hrun]; [lia|].
    destruct (minimax_refines (S (length (get_available_moves s))) 0%nat
                maximize [s] s eq_refl) as [k Hk].
    congruence.
  - intros Hv h self fuel Hs Hfuel.
    destruct (minimax_refines fuel self maximize h s Hs) as [k ->].
    exists (h ++ k). f_equal. rewrite <- Hv. by apply minimax_val_fuel.
Qed.

(** The search after a move on a blank cell has the fuel of its caller
    less one. *)
Lemma returns_child (s : TicTacToe) (m : Z) (maximize : bool) (r : Z * Z) :
  In m (get_available_moves s) ->
  minimax_val (length (get_available_moves s)) (add_move s m).1 maximize
  = Ok r ->
  returns (add_move s m).1 maximize r.1 r.2.
Proof.
  intros Hm Hr. apply returns_val.
  rewrite (available_shrinks s m Hm). by destruct r.
Qed.

Section ExploreInv.

Variable recv : TicTacToe -> result (Z * Z).
Variable s : TicTacToe.
Variable maximize : bool.

(** When the loop returns, every possible move was made and searched; the
    two lists hold, in the order of the moves, what the searches gave. *)
Lemma explore_val_inv (todo moves scores all_moves all_scores : list Z) :
  explore_val recv s maximize todo moves scores
  = Ok (all_moves, all_scores) ->
  exists rs : list (Z * Z),
    Forall2 (fun m r => recv (add_move s m).1 = Ok r) todo rs
    /\ all_moves
       = moves ++ zip_with (fun m r => if maximize then m else r.1) todo rs
    /\ all_scores = scores ++ rs.*2.
Proof.
  revert moves scores.
  induction todo as [|m rest IH]; intros moves scores; simpl.
  - intros [= <- <-]. exists []. by rewrite !app_nil_r.
  - destruct (add_move s m) as [g r] eqn:Hadd. simpl.
    destruct r as [[]|e| |]; simpl; try done.
    destruct (recv g) as [[nextMove nextScore]|e| |] eqn:Hrec; simpl;
      try done.
    intros H. apply IH in H as (rs & Hrs & -> & ->).
    exists ((nextMove, nextScore) :: rs). simpl.
    rewrite <- !app_assoc. split; [|split; reflexivity].
    constructor; [by rewrite Hadd; simpl | done].
Qed.

End ExploreInv.

Lemma fold_max_ge (r : list Z) (x y : Z) :
  In y (x :: r) -> y <= fold_left Z.max r x.
Proof.
  revert x y. induction r as [|z r IH]; intros x y; simpl.
  - intros [->|[]]. lia.
  - intros [->|[->|Hy]].
    + pose proof (IH (Z.max y z) (Z.max y z) (or_introl eq_refl)). lia.
    + pose proof (IH (Z.max x y) (Z.max x y) (or_introl eq_refl)). lia.
    + apply IH. by right.
Qed.

Lemma fold_min_le (r : list Z) (x y : Z) :
  In y (x :: r) -> fold_left Z.min r x <= y.
Proof.
  revert x y. induction r as [|z r IH]; intros x y; simpl.
  - intros [->|[]]. lia.
  - intros [->|[->|Hy]].
    + pose proof (IH (Z.min y z) (Z.min y z) (or_introl eq_refl)). lia.
    + pose proof (IH (Z.min x y) (Z.min x y) (or_introl eq_refl)). lia.
    + apply IH. by right.
Qed.

Lemma index_from_inv (k : nat) (l : list Z) (v : Z) (n : nat) :
  Py.index_from k l v = Ok n ->
  exists j, n = (k + j)%nat /\ l !! j = Some v
            /\ forall i x, (i < j)%nat -> l !! i = Some x -> x <> v.
Proof.
  revert k. induction l as [|x r IH]; intros k; simpl; [done|].
  destruct (Z.eqb_spec x v) as [->|Hne].
  - intros [= <-]. exists 0%nat. repeat split; [lia|]. intros; lia.
  - intros H. apply IH in H as (j & -> & Hj & Hfirst).
    exists (S j). repeat split; [lia | done |].
    intros [|i] y Hi; simpl; [by intros [= <-]|].
    apply Hfirst. lia.
Qed.

(** The choice: the best score, and the move at its first position. *)
Lemma choose_inv (maximize : bool) (moves scores : list Z)
      (bestMove bestScore : Z) :
  choose maximize moves scores = Ok (bestMove, bestScore) ->
  exists k,
    scores !! k = Some bestScore /\ moves !! k = Some bestMove
    /\ forall j x, scores !! j = Some x ->
         (if maximize then x <= bestScore else bestScore <= x)
         /\ ((j < k)%nat -> x <> bestScore).
Proof.
  unfold choose. destruct scores as [|x r]; [by destruct maximize|].
  set (best := if maximize then fold_left Z.max r x else fold_left Z.min r x).
  assert ((if maximize then Py.max (x :: r) else Py.min (x :: r)) = Ok best)
    as -> by (by destruct maximize).
  simpl. unfold Py.index.
  destruct (Py.index_from 0 (x :: r) best) as [n|e| |] eqn:Hidx; simpl;
    try done.
  apply index_from_inv in Hidx as (k & -> & Hk & Hfirst). simpl.
  unfold Py.getitem. destruct (moves !! k) as [mv|] eqn:Hmv; simpl;
    [|done].
  intros [= <- <-]. exists k. repeat split; try done.
  - assert (In x0 (x :: r)) as Hin
        by (apply list_elem_of_In, list_elem_of_lookup; eauto).
    subst best. destruct maximize;
      [by apply fold_max_ge | by apply fold_min_le].
  - intros Hj. by apply (Hfirst j).
Qed.

Lemma sorted_lookup_lt (l : list Z) (j k : nat) (a b : Z) :
  StronglySorted Z.lt l ->
  l !! j = Some a -> l !! k = Some b -> (j < k)%nat -> a < b.
Proof.
  intros Hs. revert j k. induction Hs as [|x l Hs IH Hall];
    intros j k Ha Hb Hjk; [done|].
  destruct k as [|k]; [lia|]. simpl in Hb.
  destruct j as [|j]; simpl in Ha.
  - injection Ha as <-. rewrite List.Forall_forall in Hall.
    apply Hall, list_elem_of_In, list_elem_of_lookup. eauto.
  - apply (IH j k); [done | done | lia].
Qed.

(** What the search on a game that is not over returns, in terms of the
    searches after each possible move. *)
Lemma minimax_val_step (s : TicTacToe) (maximize : bool)
      (bestMove bestScore : Z) :
  (check_win s).2 = false ->
  minimax_val (S (length (get_available_moves s))) s maximize
  = Ok (bestMove, bestScore) ->
  exists (m : Z) (r : Z * Z),
    In m (get_available_moves s)
    /\ minimax_val (length (get_available_moves s)) (add_move s m).1
                   (negb maximize) = Ok r
    /\ r.2 = bestScore
    /\ bestMove = (if maximize then m else r.1)
    /\ forall m', In m' (get_available_moves s) ->
         exists r',
           minimax_val (length (get_available_moves s)) (add_move s m').1
                       (negb maximize) = Ok r'
           /\ (if maximize then r'.2 <= bestScore else bestScore <= r'.2)
           /\ (m' < m -> r'.2 <> bestScore).
Proof.
  intros Hnot. simpl. destruct (check_win s) as [winner isOver].
  simpl in Hnot. subst isOver.
  destruct (explore_val _ s maximize (get_available_moves s) [] [])
    as [[moves scores]|e| |] eqn:Hloop; simpl; try done.
  apply explore_val_inv in Hloop as (rs & Hrs & -> & ->). simpl.
  intros (k & Hsc & Hmv & Hall)%choose_inv.
  rewrite list_lookup_fmap in Hsc.
  destruct (rs !! k) as [r|] eqn:Hr; [|done]. injection Hsc as Hsc.
  destruct (Forall2_lookup_r _ _ _ _ _ Hrs Hr) as (m & Hm & Hrec).
  rewrite lookup_zip_with, Hm in Hmv. simpl in Hmv. rewrite Hr in Hmv.
  injection Hmv as Hmv.
  exists m, r. repeat split; try done.
  - apply list_elem_of_In, list_elem_of_lookup. eauto.
  - intros m' Hm'.
    apply list_elem_of_In, list_elem_of_lookup in Hm' as [j Hj].
    destruct (Forall2_lookup_l _ _ _ _ _ Hrs Hj) as (r' & Hr' & Hrec').
    exists r'. split; [done|].
    destruct (Hall j r'.2) as [Hcmp Hfirst].
    { by rewrite list_lookup_fmap, Hr'. }
    split; [done|]. intros Hlt. apply Hfirst.
    destruct (decide (j < k)%nat) as [|Hge]; [done|].
    destruct (decide (j = k)) as [->|Hne]; [rewrite Hm in Hj; injection Hj; lia|].
    pose proof (sorted_lookup_lt _ k j m m'
                  (blanks_from_sorted 0 (currentBoard s)) Hm Hj).
    lia.
Qed.

Lemma num_moves_after (s : TicTacToe) (m : Z) :
  In m (get_available_moves s) ->
  get_num_moves (add_move s m).1 = get_num_moves s + 1.
Proof.
  intros Hm. rewrite add_move_available by done.
  unfold get_num_moves. simpl. rewrite length_app. simpl. lia.
Qed.

Lemma num_moves_bound (s : TicTacToe) :
  invariant s -> 0 <= get_num_moves s <= 9.
Proof. intros [_ Hc _ _ _]. unfold get_num_moves. lia. Qed.

Lemma final_score_bounds (s : TicTacToe) :
  invariant s -> (check_win s).2 = true ->
  get_num_moves s - 10 <= final_score (check_win s).1 (get_num_moves s)
                       <= 10 - get_num_moves s
  /\ -5 <= final_score (check_win s).1 (get_num_moves s) <= 4.
Proof.
  intros Hinv Hover. pose proof (num_moves_bound s Hinv) as Hn.
  destruct (check_win_cases s) as [(_ & _ & Hw)|[[H Hw]|[H Hw]]];
    rewrite Hw; simpl.
  - unfold final_score. simpl. lia.
  - apply (winner_one_moves s Hinv) in H. unfold final_score. simpl. lia.
  - apply (winner_two_moves s Hinv) in H. unfold final_score. simpl. lia.
Qed.

Lemma minimax_val_bounds (n : nat) (s : TicTacToe) (maximize : bool)
      (bestMove bestScore : Z) :
  length (get_available_moves s) = n ->
  reachable s ->
  minimax_val (S n) s maximize = Ok (bestMove, bestScore) ->
  get_num_moves s - 10 <= bestScore <= 10 - get_num_moves s
  /\ -5 <= bestScore <= 4
  /\ ((check_win s).2 = false ->
      get_num_moves s - 9 <= bestScore <= 9 - get_num_moves s).
Proof.
  revert s maximize bestMove bestScore.
  induction n as [|n IH]; intros s maximize bestMove bestScore Hn Hreach Hv.
  all: pose proof (reachable_invariant s Hreach) as Hinv.
  all: destruct (check_win s).2 eqn:Hover.
  1,3: pose proof (final_score_bounds s Hinv Hover) as [Hb Hb'];
       cbn [minimax_val] in Hv; destruct (check_win s) as [winner isOver];
       cbn [snd] in Hover; subst isOver;
       destruct (Py.last_item (allMoves s)); cbn in Hv; try done;
       injection Hv as <- <-; cbn [fst] in Hb, Hb';
       split; [done | split; [done | intros; done]].
  - pose proof (not_over_available s Hinv Hover).
    by destruct (get_available_moves s).
  - rewrite <- Hn in Hv.
    apply minimax_val_step in Hv as (m & [mv sc] & Hm & Hr & <- & _);
      [|done].
    rewrite Hn in Hr.
    pose proof (available_shrinks s m Hm) as Hlen.
    pose proof (num_moves_after s m Hm) as Hnum.
    destruct (IH (add_move s m).1 (negb maximize) mv sc) as (Hb & Hb' & _);
      [lia | by constructor | done |].
    simpl. lia.
Qed.

(** X7: on a reachable game the score of the search lies between
    [numMoves - 10] and [10 - numMoves], and between -5 and 4. *)
Theorem score_bounds (s : TicTacToe) (maximize : bool)
        (bestMove bestScore : Z) :
  reachable s ->
  returns s maximize bestMove bestScore ->
  get_num_moves s - 10 <= bestScore <= 10 - get_num_moves s
  /\ -5 <= bestScore <= 4.
Proof.
  intros Hreach Hret. apply returns_val in Hret.
  by destruct (minimax_val_bounds _ s maximize bestMove bestScore
                 eq_refl Hreach Hret) as (H1 & H2 & _).
Qed.

Lemma score_bounds_witness :
  let s := play [0; 3; 8; 4; 1] in
  get_num_moves s - 10 <= 4 <= 10 - get_num_moves s /\ -5 <= 4 <= 4.
Proof.
  intros s. apply (score_bounds s true 5 4).
  - subst s. unfold play. cbn [fold_left].
    repeat (first [apply reachable_init
                  | apply reachable_move; [|vm_compute; tauto]]).
  - apply returns_val. vm_compute. reflexivity.
Defined.

(** X8: with [maximize] true, on a reachable game that is not over, the
    score returned is the greatest of the scores that the search with
    [maximize] false returns after each available move, and the move
    returned is the least available move after which that score is
    returned. *)
Theorem minimax_maximizes (s : TicTacToe) (bestMove bestScore : Z) :
  reachable s ->
  (check_win s).2 = false ->
  returns s true bestMove bestScore ->
  In bestMove (get_available_moves s)
  /\ (exists reply, returns (add_move s bestMove).1 false reply bestScore)
  /\ forall m, In m (get_available_moves s) ->
       exists reply score,
         returns (add_move s m).1 false reply score
         /\ score <= bestScore
         /\ (m < bestMove -> score < bestScore).
Proof.
  intros Hreach Hnot Hret. apply returns_val in Hret.
  apply minimax_val_step in Hret
    as (m & [mv sc] & Hm & Hr & Hsc & -> & Hall); [|done].
  simpl in *. subst sc. split; [done|]. split.
  - exists mv. by apply (returns_child s m false (mv, bestScore)).
  - intros m' Hm'. destruct (Hall m' Hm') as ([mv' sc'] & Hr' & Hle & Hne).
    exists mv', sc'. split; [by apply (returns_child s m' false (mv', sc'))|].
    simpl in *. split; [done|]. intros Hlt. specialize (Hne Hlt). lia.
Qed.

Lemma minimax_maximizes_witness :
  let s := play [0; 3; 8; 4; 1] in
  In 5 (get_available_moves s)
  /\ (exists reply, returns (add_move s 5).1 false reply 4)
  /\ forall m, In m (get_available_moves s) ->
       exists reply score,
         returns (add_move s m).1 false reply score
         /\ score <= 4
         /\ (m < 5 -> score < 4).
Proof.
  intros s. apply (minimax_maximizes s 5 4).
  - subst s. unfold play. cbn [fold_left].
    repeat (first [apply reachable_init
                  | apply reachable_move; [|vm_compute; tauto]]).
  - reflexivity.
  - apply returns_val. vm_compute. reflexivity.
Defined.

(** X9: with [maximize] false, on a reachable game that is not over, the
    score returned is the least of the scores that the search with
    [maximize] true returns after each available move, and the move
    returned is the one that search returns after the least available move
    with that score. *)
Theorem minimax_minimizes (s : TicTacToe) (bestMove bestScore : Z) :
  reachable s ->
  (check_win s).2 = false ->
  returns s false bestMove bestScore ->
  exists m,
    In m (get_available_moves s)
    /\ returns (add_move s m).1 true bestMove bestScore
    /\ forall m', In m' (get_available_moves s) ->
         exists reply score,
           returns (add_move s m').1 true reply score
           /\ bestScore <= score
           /\ (m' < m -> bestScore < score).
Proof.
  intros Hreach Hnot Hret. apply returns_val in Hret.
  apply minimax_val_step in Hret
    as (m & [mv sc] & Hm & Hr & Hsc & -> & Hall); [|done].
  simpl in *. subst sc. exists m. split; [done|]. split.
  - by apply (returns_child s m true (mv, bestScore)).
  - intros m' Hm'. destruct (Hall m' Hm') as ([mv' sc'] & Hr' & Hle & Hne).
    exists mv', sc'. split; [by apply (returns_child s m' true (mv', sc'))|].
    simpl in *. split; [done|]. intros Hlt. specialize (Hne Hlt). lia.
Qed.

Lemma minimax_minimizes_witness :
  let s := play [0; 3; 8; 4] in
  exists m,
    In m (get_available_moves s)
    /\ returns (add_move s m).1 true 2 0
    /\ forall m', In m' (get_available_moves s) ->
         exists reply score,
           returns (add_move s m').1 true reply score
           /\ 0 <= score
           /\ (m' < m -> 0 < score).
Proof.
  intros s. apply (minimax_minimizes s 2 0).
  - subst s. unfold play. cbn [fold_left].
    repeat (first [apply reachable_init
                  | apply reachable_move; [|vm_compute; tauto]]).
  - reflexivity.
  - apply returns_val. vm_compute. reflexivity.
Defined.

Lemma minimax_val_over (fuel : nat) (s : TicTacToe) (maximize : bool)
      (winner bestMove bestScore : Z) :
  check_win s = (winner, true) ->
  minimax_val (S fuel) s maximize = Ok (bestMove, bestScore) ->
  bestScore = final_score winner (get_num_moves s).
Proof.
  intros Hw. cbn [minimax_val]. rewrite Hw.
  destruct (Py.last_item (allMoves s)); cbn; try done. by intros [= _ <-].
Qed.

(** After a move on a blank cell of a reachable game that is not over, the
    search scores [9 - numMoves] exactly when that move has made
    PLAYER_TWO the winner. *)
Lemma child_score_win (s : TicTacToe) (m : Z) (maximize : bool) (r : Z * Z) :
  reachable s -> (check_win s).2 = false ->
  In m (get_available_moves s) ->
  minimax_val (length (get_available_moves s)) (add_move s m).1 maximize
  = Ok r ->
  r.2 <= 9 - get_num_moves s
  /\ (r.2 = 9 - get_num_moves s <->
      check_win (add_move s m).1 = (PLAYER_TWO, true)).
Proof.
  intros Hreach Hnot Hm Hr. destruct r as [mv sc]. simpl.
  pose proof (reachable_invariant s Hreach) as Hinv.
  pose proof (num_moves_bound s Hinv) as HN.
  pose proof (proj2 (proj2 (not_over_no_line s Hnot))) as Hnine.
  assert (get_num_moves s <= 8) as HN8 by (unfold get_num_moves in *; lia).
  pose proof (available_shrinks s m Hm) as Hlen.
  pose proof (num_moves_after s m Hm) as Hnum.
  assert (reachable (add_move s m).1) as Hreach' by (by constructor).
  rewrite <- Hlen in Hr.
  destruct (minimax_val_bounds _ _ maximize mv sc eq_refl Hreach' Hr)
    as (Hb & _ & Hb').
  split; [lia|]. split.
  - intros ->. destruct (check_win (add_move s m).1) as [w o] eqn:Hw.
    destruct o; [|specialize (Hb' eq_refl); lia].
    apply (minimax_val_over _ _ _ w) in Hr; [|done].
    rewrite Hnum in Hr. unfold final_score in Hr.
    destruct (check_win_sound (add_move s m).1) as (_ & _ & _ & Hwin & _).
    rewrite Hw in Hwin. simpl in Hwin.
    destruct Hwin as [-> | [-> | ->]]; simpl in Hr; [lia | done | lia].
  - intros Hw. apply (minimax_val_over _ _ _ PLAYER_TWO) in Hr; [|done].
    rewrite Hr, Hnum. unfold final_score. simpl. lia.
Qed.

(** X10: with [maximize] true, on a reachable game that is not over where
    some available move makes PLAYER_TWO the winner at once, the search
    returns the least such move, with the score [9 - numMoves]. *)
Theorem minimax_takes_win (s : TicTacToe) (bestMove bestScore winning : Z) :
  reachable s ->
  (check_win s).2 = false ->
  In winning (get_available_moves s) ->
  check_win (add_move s winning).1 = (PLAYER_TWO, true) ->
  returns s true bestMove bestScore ->
  bestScore = 9 - get_num_moves s
  /\ check_win (add_move s bestMove).1 = (PLAYER_TWO, true)
  /\ bestMove <= winning
  /\ forall m, In m (get_available_moves s) -> m < bestMove ->
       check_win (add_move s m).1 <> (PLAYER_TWO, true).
Proof.
  intros Hreach Hnot Hwin Hwon Hret. apply returns_val in Hret.
  apply minimax_val_step in Hret
    as (m & r & Hm & Hr & Hsc & -> & Hall); [|done].
  simpl in Hr, Hall.
  destruct (child_score_win s m false r Hreach Hnot Hm Hr) as [Hle Hiff].
  destruct (Hall winning Hwin) as (r0 & Hr0 & Hle0 & Hne0).
  destruct (child_score_win s winning false r0 Hreach Hnot Hwin Hr0)
    as [_ Hiff0].
  apply Hiff0 in Hwon.
  assert (bestScore = 9 - get_num_moves s) as Hbest by lia.
  split; [done|]. split; [apply Hiff; lia|]. split.
  - destruct (Z.le_gt_cases m winning) as [|Hlt]; [done|].
    specialize (Hne0 Hlt). lia.
  - intros m' Hm' Hlt Hw'.
    destruct (Hall m' Hm') as (r' & Hr' & _ & Hne').
    destruct (child_score_win s m' false r' Hreach Hnot Hm' Hr') as [_ Hiff'].
    apply Hiff' in Hw'. specialize (Hne' Hlt). lia.
Qed.

Lemma minimax_takes_win_witness :
  let s := play [0; 3; 8; 4; 1] in
  4 = 9 - get_num_moves s
  /\ check_win (add_move s 5).1 = (PLAYER_TWO, true)
  /\ 5 <= 5
  /\ forall m, In m (get_available_moves s) -> m < 5 ->
       check_win (add_move s m).1 <> (PLAYER_TWO, true).
Proof.
  intros s. apply (minimax_takes_win s 5 4 5).
  - subst s. unfold play. cbn [fold_left].
    repeat (first [apply reachable_init
                  | apply reachable_move; [|vm_compute; tauto]]).
  - reflexivity.
  - vm_compute. tauto.
  - reflexivity.
  - apply returns_val. vm_compute. reflexivity.
Defined.

(** X11: on a game that [check_win] does not report over and that has no
    blank cell, [minimax] raises [ValueError], from [max] or [min] of the
    empty list of scores, and leaves the store as it was. *)
Theorem minimax_no_moves (h : store) (self : ref) (s : TicTacToe)
        (maximize : bool) (fuel : nat) :
  h !! self = Some s ->
  (check_win s).2 = false ->
  get_available_moves s = [] ->
  minimax (S fuel) self maximize h = (h, Raise ValueError).
Proof.
  intros Hs Hnot Hnil. cbn [minimax].
  unfold mbind, M_bind, read, lift. rewrite Hs.
  destruct (check_win s) as [winner isOver]. simpl in Hnot. subst isOver.
  rewrite Hs, Hnil. simpl. by destruct maximize.
Qed.

Lemma minimax_no_moves_witness :
  let s := (add_move (play [0; 1; 2; 4; 3; 5; 7; 6; 8]) 0).1 in
  minimax 1 0%nat true [s] = ([s], Raise ValueError).
Proof.
  intros s. by apply (minimax_no_moves [s] 0%nat s true 0).
Defined.

(** ** Reading the player's move *)

Section PlayerMove.

Variable int : string -> option Z.
Variable self : ref.
Variable s : TicTacToe.

Lemma accepted_available (line : string) (m : Z) :
  accepted int s line = Some m ->
  int line = Some (m + 1) /\ 0 <= m <= 8 /\ In m (get_available_moves s).
Proof.
  unfold accepted. destruct (int line) as [playerMove|]; [|done].
  destruct (Z.leb_spec 1 playerMove); [|done].
  destruct (Z.ltb_spec playerMove 10); [|done]. simpl.
  destruct (existsb _ _) eqn:Hmem; [|done].
  intros [= <-]. apply mem_In in Hmem.
  split; [f_equal; lia | split; [lia | done]].
Qed.

Lemma get_player_move_loop_inv (lines : list string) (w w' : world)
      (r : io_result Z) :
  heap w !! self = Some s ->
  stdin w = lines ->
  get_player_move_loop int self lines w = (w', r) ->
  heap w' = heap w
  /\ (exists msgs,
        stdout w' = stdout w ++ map Write msgs
        /\ (length msgs + length (stdin w') = length lines)%nat)
  /\ match r with
     | Done (Ok m) =>
         exists skipped line,
           lines = skipped ++ line :: stdin w'
           /\ Forall (fun l => accepted int s l = None) skipped
           /\ accepted int s line = Some m
     | EOFError =>
         Forall (fun l => accepted int s l = None) lines /\ stdin w' = []
     | Done _ => False
     end.
Proof.
  revert w w' r. induction lines as [|line rest IH]; intros w w' r Hs Hin.
  - simpl. intros [= <- <-]. split; [done|]. split; [|done].
    exists []. rewrite Hin. by rewrite app_nil_r.
  - cbn [get_player_move_loop].
    set (w1 := {| stdin := rest; stdout := stdout w; heap := heap w |}).
    assert (forall text w2 r2,
              (_ ← print text; get_player_move_loop int self rest) w1
              = (w2, r2) ->
              accepted int s line = None ->
              heap w2 = heap w
              /\ (exists msgs,
                    stdout w2 = stdout w ++ map Write msgs
                    /\ (length msgs + length (stdin w2)
                        = length (line :: rest))%nat)
              /\ match r2 with
                 | Done (Ok m) =>
                     exists skipped line0,
                       line :: rest = skipped ++ line0 :: stdin w2
                       /\ Forall (fun l => accepted int s l = None) skipped
                       /\ accepted int s line0 = Some m
                 | EOFError =>
                     Forall (fun l => accepted int s l = None) (line :: rest)
                     /\ stdin w2 = []
                 | Done _ => False
                 end) as Hskip.
    { intros text w2 r2 Hrun Hacc.
      unfold mbind, IO_bind, print, emit in Hrun. cbn in Hrun.
      destruct (IH {| stdin := rest;
                      stdout := stdout w ++ [Write (text ++ LF)%string];
                      heap := heap w |} w2 r2 Hs eq_refl Hrun)
        as (Hh & (msgs & Hout & Hlen) & Hr).
      cbn in Hh, Hout. split; [done|]. split.
      - exists ((text ++ LF)%string :: msgs). cbn.
        rewrite Hout, <- app_assoc. split; [done | cbn; lia].
      - destruct r2 as [[m|e| |]|]; try done.
        + destruct Hr as (skipped & line0 & -> & Hsk & Hok).
          exists (line :: skipped), line0.
          split; [done|]. split; [by constructor | done].
        + destruct Hr as [Hall Hnil]. split; [by constructor | done]. }
    destruct (int line) as [playerMove|] eqn:Hint.
    2: { intros Hrun. apply (Hskip _ _ _ Hrun). unfold accepted.
         by rewrite Hint. }
    unfold mbind at 1, IO_bind at 1, run, read. cbn. rewrite Hs.
    destruct ((1 <=? playerMove) && (playerMove <? 10)) eqn:Hrange;
      cbn [negb].
    2: { intros Hrun. apply (Hskip _ _ _ Hrun). unfold accepted.
         by rewrite Hint, Hrange. }
    destruct (existsb (Z.eqb (playerMove - 1)) (get_available_moves s))
      eqn:Hmem; cbn [negb].
    2: { intros Hrun. apply (Hskip _ _ _ Hrun). unfold accepted.
         by rewrite Hint, Hrange, Hmem. }
    cbn. intros [= <- <-]. cbn. split; [done|]. split.
    + exists ["Player chose: " ++ str playerMove ++ LF]%string. cbn.
      split; [reflexivity | lia].
    + exists [], line. split; [done|]. split; [constructor|].
      unfold accepted. by rewrite Hint, Hrange, Hmem.
Qed.

End PlayerMove.

(** X12: [get_player_move] returns the move of the first line of input
    that is a number from 1 to 9 whose cell is blank, as an index among the
    available moves; it has then read the lines up to that one and no more.
    If no line is such, it reads them all and ends on [EOFError]. It leaves
    every game as it was and fails in no other way. *)
Theorem get_player_move_first_accepted (int : string -> option Z)
        (self : ref) (s : TicTacToe) (w w' : world) (r : io_result Z) :
  heap w !! self = Some s ->
  get_player_move int self w = (w', r) ->
  heap w' = heap w
  /\ match r with
     | Done (Ok m) =>
         In m (get_available_moves s) /\ 0 <= m <= 8
         /\ exists skipped line,
              stdin w = skipped ++ line :: stdin w'
              /\ Forall (fun l => accepted int s l = None) skipped
              /\ int line = Some (m + 1)
     | EOFError =>
         Forall (fun l => accepted int s l = None) (stdin w)
         /\ stdin w' = []
     | Done _ => False
     end.
Proof.
  intros Hs Hrun. unfold get_player_move in Hrun.
  destruct (get_player_move_loop_inv int self s (stdin w) w w' r
              Hs eq_refl Hrun) as (Hh & _ & Hr).
  split; [done|]. destruct r as [[m|e| |]|]; try done.
  destruct Hr as (skipped & line & Hin & Hsk & Hok).
  apply accepted_available in Hok as (Hint & Hm & Hav).
  split; [done|]. split; [done|]. by exists skipped, line.
Qed.

Lemma get_player_move_first_accepted_witness :
  let int := fun line : string =>
    if String.eqb line "5" then Some 5
    else if String.eqb line "12" then Some 12 else None in
  let w := {| stdin := ["x"; "12"; "5"; "7"]%string; stdout := [];
              heap := [init] |} in
  let w' := (get_player_move int 0%nat w).1 in
  heap w' = heap w
  /\ match (get_player_move int 0%nat w).2 with
     | Done (Ok m) =>
         In m (get_available_moves init) /\ 0 <= m <= 8
         /\ exists skipped line,
              stdin w = skipped ++ line :: stdin w'
              /\ Forall (fun l => accepted int init l = None) skipped
              /\ int line = Some (m + 1)
     | EOFError =>
         Forall (fun l => accepted int init l = None) (stdin w)
         /\ stdin w' = []
     | Done _ => False
     end.
Proof.
  intros int w w'.
  apply (get_player_move_first_accepted int 0%nat init w); [reflexivity|].
  apply surjective_pairing.
Defined.

(** X13: [get_player_move] writes one line on the terminal for each line
    of input it reads, and does nothing else there. *)
Theorem get_player_move_output (int : string -> option Z)
        (self : ref) (s : TicTacToe) (w w' : world) (r : io_result Z) :
  heap w !! self = Some s ->
  get_player_move int self w = (w', r) ->
  exists texts,
    stdout w' = stdout w ++ map Write texts
    /\ (length texts + length (stdin w') = length (stdin w))%nat.
Proof.
  intros Hs Hrun. unfold get_player_move in Hrun.
  by destruct (get_player_move_loop_inv int self s (stdin w) w w' r
                 Hs eq_refl Hrun) as (_ & Hout & _).
Qed.

Lemma get_player_move_output_witness :
  let int := fun line : string =>
    if String.eqb line "5" then Some 5
    else if String.eqb line "12" then Some 12 else None in
  let w := {| stdin := ["x"; "12"; "5"; "7"]%string; stdout := [];
              heap := [init] |} in
  let w' := (get_player_move int 0%nat w).1 in
  exists texts,
    stdout w' = stdout w ++ map Write texts
    /\ (length texts + length (stdin w') = length (stdin w))%nat.
Proof.
  intros int w w'.
  apply (get_player_move_output int 0%nat init w w'
           (get_player_move int 0%nat w).2); [reflexivity|].
  apply surjective_pairing.
Defined.

(** ** The game against the computer *)

Lemma bind_ok {A B} (m : IO A) (f : A -> IO B) (w w2 : world) (a : A) :
  m w = (w2, Done (Ok a)) -> (m ≫= f) w = f a w2.
Proof. intros H. unfold mbind, IO_bind. by rewrite H. Qed.

Lemma emit_ok (e : event) (w : world) :
  emit e w
  = ({| stdin := stdin w; stdout := stdout w ++ [e]; heap := heap w |},
     Done (Ok tt)).
Proof. reflexivity. Qed.

Lemma print_ok (text : string) (w : world) :
  print text w
  = ({| stdin := stdin w; stdout := stdout w ++ [Write (text ++ LF)];
        heap := heap w |}, Done (Ok tt)).
Proof. reflexivity. Qed.

Lemma sleep_ok (seconds : Q) (w : world) :
  sleep seconds w
  = ({| stdin := stdin w; stdout := stdout w ++ [Sleep seconds];
        heap := heap w |}, Done (Ok tt)).
Proof. reflexivity. Qed.

Lemma print_board_ok (os_name : string) (self : ref) (s : TicTacToe)
      (w : world) :
  heap w !! self = Some s ->
  length (currentBoard s) = 9%nat ->
  exists shown,
    print_board os_name self w
    = ({| stdin := stdin w; stdout := stdout w ++ shown; heap := heap w |},
       Done (Ok tt)).
Proof.
  intros Hs Hb. unfold print_board, system, print.
  rewrite (bind_ok _ _ _ _ _ (emit_ok _ w)).
  unfold mbind, IO_bind, run, read, lift, emit. cbn. rewrite Hs.
  destruct (currentBoard s) as [|c0 [|c1 [|c2 [|c3 [|c4 [|c5 [|c6 [|c7
     [|c8 [|c9 rest]]]]]]]]]]; try done.
  cbn. rewrite <- app_assoc. eauto.
Qed.

Lemma never_loses_init : never_loses 5 init = true.
Proof. vm_cast_no_check (eq_refl true). Qed.

Lemma never_loses_step (n : nat) (s : TicTacToe) (playerMove : Z) :
  never_loses (S n) s = true ->
  In playerMove (get_available_moves s) ->
  let g := (add_move s playerMove).1 in
  if (check_win g).2 then (check_win g).1 <> PLAYER_ONE
  else exists cpuMove score,
         minimax_val 10 g true = Ok (cpuMove, score)
         /\ let g' := (add_move g cpuMove).1 in
            if (check_win g').2 then (check_win g').1 <> PLAYER_ONE
            else never_loses n g' = true.
Proof.
  cbn [never_loses]. rewrite forallb_forall. intros H Hm.
  specialize (H playerMove Hm). cbv zeta in *.
  destruct (check_win (add_move s playerMove).1) as [winner [|]];
    cbn [fst snd].
  - by destruct (Z.eqb_spec winner PLAYER_ONE).
  - destruct (minimax_val 10 (add_move s playerMove).1 true)
      as [[cpuMove score]|e| |]; try done.
    exists cpuMove, score. split; [done|].
    destruct (check_win (add_move (add_move s playerMove).1 cpuMove).1)
      as [winner' [|]]; cbn [fst snd]; [|done].
    by destruct (Z.eqb_spec winner' PLAYER_ONE).
Qed.

Section Game.

Variable os_name : string.
Variable int : string -> option Z.
Variable depth : nat.
Variable newGame : ref.

Hypothesis depth_enough : (9 < depth)%nat.

(** The loop of the game from a game that the computer cannot lose: it
    ends at the end of the input or on a finished game that PLAYER_ONE has
    not won. *)
Lemma game_loop_safe (n fuel : nat) (s : TicTacToe) (w w' : world)
      (r : io_result Z) :
  never_loses n s = true ->
  (n <= fuel)%nat ->
  heap w !! newGame = Some s ->
  well_formed s ->
  (check_win s).2 = false ->
  game_loop os_name int fuel depth newGame w = (w', r) ->
  match r with
  | EOFError => stdin w' = []
  | Done (Ok winner) =>
      exists s',
        heap w' !! newGame = Some s' /\ well_formed s'
        /\ check_win s' = (winner, true) /\ winner <> PLAYER_ONE
  | Done _ => False
  end.
Proof.
  revert fuel s w. induction n as [|n IH];
    intros [|fuel] s w Hsafe Hfuel Hs Hwf Hnot; try done; try lia.
  cbn [game_loop].
  rewrite (bind_ok _ _ _ _ _ (print_ok _ w)).
  set (w1 := {| stdin := stdin w; stdout := _; heap := heap w |}).
  unfold mbind at 1, IO_bind at 1.
  destruct (get_player_move int newGame w1) as [w2 r2] eqn:Hget.
  destruct (get_player_move_first_accepted int newGame s w1 w2 r2 Hs Hget)
    as [Hh2 Hr2].
  destruct r2 as [[m|e| |]|]; try done.
  2: { intros [= <- <-]. apply Hr2. }
  destruct Hr2 as (Hm & _ & _).
  (* the player's move *)
  pose proof (never_loses_step n s m Hsafe Hm) as Hstep. cbv zeta in Hstep.
  assert (well_formed (add_move s m).1) as Hwf1 by (by constructor).
  pose proof (reachable_invariant _ (well_formed_reachable _ Hwf1)) as Hinv1.
  set (g := (add_move s m).1) in *.
  assert (newGame < length (heap w))%nat as Hlt
      by (by apply lookup_lt_Some in Hs).
  unfold mbind at 1, IO_bind at 1, run at 1, call at 1.
  rewrite Hh2. cbn [heap w1]. rewrite Hs.
  assert (moved s m (Z.to_nat m) = g) as Hg
      by (subst g; by rewrite add_move_available).
  rewrite (add_move_available s m Hm), Hg.
  set (w3 := {| stdin := stdin w2; stdout := stdout w2;
                heap := <[newGame := g]> (heap w) |}).
  assert (heap w3 !! newGame = Some g) as Hs3
      by (by apply list_lookup_insert_eq).
  destruct (print_board_ok os_name newGame g w3 Hs3 (inv_board g Hinv1))
    as [shown Hshown].
  rewrite (bind_ok _ _ _ _ _ Hshown).
  unfold mbind at 1, IO_bind at 1, run at 1, read at 1.
  cbn [heap]. cbn [heap] in Hs3. rewrite Hs3.
  destruct (check_win g) as [winner gameOver] eqn:Hwin.
  cbn [fst snd] in Hstep. destruct gameOver.
  { intros [= <- <-]. exists g. by repeat split. }
  (* the computer's move *)
  destruct Hstep as (cpuMove & score & Hval & Hstep).
  rewrite (bind_ok _ _ _ _ _ (print_ok _ _)).
  unfold mbind at 1, IO_bind at 1, run at 1. cbn [heap].
  destruct (minimax_refines depth newGame true _ g Hs3) as [k ->].
  rewrite (minimax_val_ten depth g true (inv_board g Hinv1) depth_enough).
  rewrite Hval.
  rewrite (bind_ok _ _ _ _ _ (sleep_ok _ _)).
  assert (In cpuMove (get_available_moves g)) as Hcpu.
  { destruct (minimax_val_total 10 g true) as (mv & sc & Hmv & Hin).
    - by apply well_formed_reachable.
    - pose proof (inv_count g Hinv1). lia.
    - rewrite Hwin in Hin. simpl in Hin. congruence. }
  assert (well_formed (add_move g cpuMove).1) as Hwf2.
  { constructor; [done | by rewrite Hwin | done]. }
  pose proof (reachable_invariant _ (well_formed_reachable _ Hwf2)) as Hinv2.
  set (g' := (add_move g cpuMove).1) in *.
  unfold mbind at 1, IO_bind at 1, run at 1, call at 1. cbn [heap].
  unfold store in *. rewrite (lookup_kept _ k _ _ Hs3).
  assert (moved g cpuMove (Z.to_nat cpuMove) = g') as Hg'
      by (subst g'; by rewrite add_move_available).
  rewrite (add_move_available g cpuMove Hcpu), Hg'.
  match goal with
  | |- context [print_board os_name newGame ≫= ?f] =>
      match goal with
      | |- (_ ≫= _) ?w5 = _ -> _ =>
          assert (heap w5 !! newGame = Some g') as Hs5
      end
  end.
  { cbn [heap]. apply list_lookup_insert_eq.
    rewrite length_app. apply lookup_lt_Some in Hs3. lia. }
  match type of Hs5 with
  | heap ?w5 !! _ = _ =>
      destruct (print_board_ok os_name newGame g' w5 Hs5 (inv_board g' Hinv2))
        as [shown' Hshown']
  end.
  rewrite (bind_ok _ _ _ _ _ Hshown').
  unfold mbind at 1, IO_bind at 1, run at 1, read at 1.
  cbn [heap]. cbn [heap] in Hs5. rewrite Hs5.
  destruct (check_win g') as [winner' gameOver'] eqn:Hwin'.
  cbn [fst snd] in Hstep. destruct gameOver'.
  { intros [= <- <-]. exists g'. by repeat split. }
  intros Hrun.
  refine (IH fuel g' _ Hstep _ _ Hwf2 _ Hrun);
    [lia | exact Hs5 | by rewrite Hwin'].
Qed.

End Game.

Lemma print_game_instruc_ok (w : world) :
  exists out,
    print_game_instruc w
    = ({| stdin := stdin w; stdout := stdout w ++ out; heap := heap w |},
       Done (Ok tt)).
Proof.
  unfold print_game_instruc, mbind, IO_bind, print, sleep, emit. cbn.
  rewrite <- !app_assoc. eauto.
Qed.

Lemma countdown_loop_ok (counts : list Z) (w : world) :
  exists out,
    countdown_loop counts w
    = ({| stdin := stdin w; stdout := stdout w ++ out; heap := heap w |},
       Done (Ok tt)).
Proof.
  revert w. induction counts as [|c rest IH]; intros w.
  - exists []. rewrite app_nil_r. by destruct w.
  - cbn [countdown_loop]. unfold print_end.
    rewrite (bind_ok _ _ _ _ _ (emit_ok _ _)).
    rewrite (bind_ok _ _ _ _ _ (sleep_ok _ _)).
    match goal with
    | |- context [countdown_loop rest ?w2] =>
        destruct (IH w2) as [out ->]
    end.
    cbn. rewrite <- !app_assoc. eauto.
Qed.

Lemma announce_ok (winner : Z) (w : world) :
  winner = PLAYER_TWO \/ winner = -1 ->
  exists text,
    announce winner w
    = ({| stdin := stdin w; stdout := stdout w ++ [Write (text ++ LF)];
          heap := heap w |}, Done (Ok tt))
    /\ (winner = PLAYER_TWO ->
        text = "Computer wins! Looks like Drew coded this correctly!"%string)
    /\ (winner = -1 -> text = "It's a tie!"%string).
Proof.
  intros [-> | ->]; eexists; (split; [reflexivity|]); by split.
Qed.

Section Play.

Variable os_name : string.
Variable int : string -> option Z.

(** What a run of [play_tictactoe] comes to: the end of the input, or a
    finished game that PLAYER_ONE has not won and its message. *)
Lemma play_tictactoe_inv (fuel : nat) (w w' : world) (r : io_result unit) :
  (9 < fuel)%nat ->
  play_tictactoe os_name int fuel w = (w', r) ->
  match r with
  | EOFError => stdin w' = []
  | Done (Ok _) =>
      exists (s' : TicTacToe) (winner : Z) (out : list event) (text : string),
        heap w' !! length (heap w) = Some s'
        /\ well_formed s'
        /\ check_win s' = (winner, true)
        /\ stdout w' = out ++ [Sleep 0.5; Write (text ++ LF)]
        /\ (winner = PLAYER_TWO
            /\ text
               = "Computer wins! Looks like Drew coded this correctly!"%string
            \/ winner = -1 /\ text = "It's a tie!"%string)
  | Done _ => False
  end.
Proof.
  intros Hfuel. unfold play_tictactoe.
  unfold mbind at 1, IO_bind at 1, run at 1, new. cbn [heap].
  set (newGame := length (heap w)).
  set (w1 := {| stdin := stdin w; stdout := stdout w;
                heap := heap w ++ [init] |}).
  assert (heap w1 !! newGame = Some init) as Hs1 by apply lookup_fresh.
  destruct (print_game_instruc_ok w1) as [out1 H1].
  rewrite (bind_ok _ _ _ _ _ H1).
  unfold print_end at 1. rewrite (bind_ok _ _ _ _ _ (emit_ok _ _)).
  rewrite (bind_ok _ _ _ _ _ (sleep_ok _ _)).
  match goal with
  | |- (countdown_loop _ ≫= _) ?w2 = _ -> _ =>
      destruct (countdown_loop_ok [3; 2; 1] w2) as [out2 H2]
  end.
  rewrite (bind_ok _ _ _ _ _ H2). cbn [stdin stdout heap].
  match goal with
  | |- (print_board _ _ ≫= _) ?w3 = _ -> _ =>
      destruct (print_board_ok os_name newGame init w3 Hs1 eq_refl)
        as [shown H3]
  end.
  rewrite (bind_ok _ _ _ _ _ H3). cbn [stdin stdout heap].
  unfold mbind at 1, IO_bind at 1.
  match goal with
  | |- context [game_loop os_name int fuel fuel newGame ?w4] =>
      destruct (game_loop os_name int fuel fuel newGame w4) as [w5 r5]
        eqn:Hloop;
      pose proof (game_loop_safe os_name int fuel newGame Hfuel 5 fuel init
                    w4 w5 r5 never_loses_init ltac:(lia) Hs1
                    well_formed_init eq_refl Hloop) as Hsafe
  end.
  destruct r5 as [[winner|e| |]|]; try done.
  2: { by intros [= <- <-]. }
  destruct Hsafe as (s' & Hs' & Hwf' & Hwin & Hne).
  rewrite (bind_ok _ _ _ _ _ (sleep_ok _ _)).
  assert (winner = PLAYER_TWO \/ winner = -1) as Hwinner.
  { destruct (check_win_sound s') as (_ & _ & _ & H & _).
    rewrite Hwin in H. simpl in H. tauto. }
  destruct (announce_ok winner
              {| stdin := stdin w5; stdout := stdout w5 ++ [Sleep 0.5];
                 heap := heap w5 |} Hwinner) as (text & -> & Ht2 & Ht1).
  intros [= <- <-]. cbn [stdin stdout heap].
  exists s', winner, (stdout w5), text.
  split; [done|]. split; [done|]. split; [done|].
  split; [by rewrite <- app_assoc|].
  destruct Hwinner as [Hw|Hw]; [left | right]; auto.
Qed.

End Play.

(** X14: the computer never loses. With fuel above 9, whatever the lines
    of input, [play_tictactoe] ends either on [EOFError] with the input
    read to its end, or normally with, as the last thing written, the
    message that the computer wins or the message of a tie; it never fails
    otherwise and never ends on the message of the player's win. *)
Theorem play_tictactoe_never_lost (os_name : string)
        (int : string -> option Z) (fuel : nat) (w w' : world)
        (r : io_result unit) :
  (9 < fuel)%nat ->
  play_tictactoe os_name int fuel w = (w', r) ->
  match r with
  | EOFError => stdin w' = []
  | Done (Ok _) =>
      exists (out : list event) (text : string),
        stdout w' = out ++ [Sleep 0.5; Write (text ++ LF)]
        /\ (text = "Computer wins! Looks like Drew coded this correctly!"%string
            \/ text = "It's a tie!"%string)
  | Done _ => False
  end.
Proof.
  intros Hfuel Hrun.
  pose proof (play_tictactoe_inv os_name int fuel w w' r Hfuel Hrun) as H.
  clear Hrun. destruct r as [[[]|e| |]|]; try exact H.
  destruct H as (s' & winner & out & text & _ & _ & _ & Hout & Htext).
  exists out, text. split; [exact Hout | tauto].
Qed.

Lemma play_tictactoe_never_lost_witness :
  let int := fun line : string =>
    if String.eqb line "5" then Some 5
    else if String.eqb line "3" then Some 3
    else if String.eqb line "8" then Some 8 else None in
  let w := {| stdin := ["x"; "5"; "3"; "8"]%string; stdout := [];
              heap := [] |} in
  match (play_tictactoe "posix" int 10 w).2 with
  | EOFError => stdin (play_tictactoe "posix" int 10 w).1 = []
  | Done (Ok _) =>
      exists (out : list event) (text : string),
        stdout (play_tictactoe "posix" int 10 w).1
        = out ++ [Sleep 0.5; Write (text ++ LF)]
        /\ (text = "Computer wins! Looks like Drew coded this correctly!"%string
            \/ text = "It's a tie!"%string)
  | Done _ => False
  end.
Proof.
  intros int w.
  apply (play_tictactoe_never_lost "posix" int 10 w); [lia|].
  apply surjective_pairing.
Defined.

(** X15: when [play_tictactoe] ends normally, the game it has played is a
    game played by the rules that [check_win] reports over, with
    PLAYER_TWO or nobody as the winner. *)
Theorem play_tictactoe_final_game (os_name : string)
        (int : string -> option Z) (fuel : nat) (w w' : world)
        (r : io_result unit) :
  (9 < fuel)%nat ->
  play_tictactoe os_name int fuel w = (w', r) ->
  match r with
  | Done (Ok _) =>
      exists (s' : TicTacToe) (winner : Z),
        heap w' !! length (heap w) = Some s'
        /\ well_formed s'
        /\ check_win s' = (winner, true)
        /\ (winner = PLAYER_TWO \/ winner = -1)
  | _ => True
  end.
Proof.
  intros Hfuel Hrun.
  pose proof (play_tictactoe_inv os_name int fuel w w' r Hfuel Hrun) as H.
  clear Hrun. destruct r as [[[]|e| |]|]; try exact I.
  destruct H as (s' & winner & out & text & Hs' & Hwf & Hwin & _ & Hw).
  exists s', winner.
  split; [exact Hs' | split; [exact Hwf | split; [exact Hwin | tauto]]].
Qed.

Lemma play_tictactoe_final_game_witness :
  let int := fun line : string =>
    if String.eqb line "5" then Some 5
    else if String.eqb line "3" then Some 3
    else if String.eqb line "8" then Some 8 else None in
  let w := {| stdin := ["x"; "5"; "3"; "8"]%string; stdout := [];
              heap := [] |} in
  match (play_tictactoe "posix" int 10 w).2 with
  | Done (Ok _) =>
      exists (s' : TicTacToe) (winner : Z),
        heap (play_tictactoe "posix" int 10 w).1 !! length (heap w) = Some s'
        /\ well_formed s'
        /\ check_win s' = (winner, true)
        /\ (winner = PLAYER_TWO \/ winner = -1)
  | _ => True
  end.
Proof.
  intros int w.
  apply (play_tictactoe_final_game "posix" int 10 w); [lia|].
  apply surjective_pairing.
Defined.
